(** * GPS uphill detector: a shallow embedding of [gps_uphill_detection.py]

    The Python program reads GPGGA fixes, removes repeated fixes at the same
    coordinate ([clean_gga_data]), and flags the fixes that belong to a
    significant ascent ([detect_uphill], using [get_distance_between_locations]).

    Modelling choices.
    - Python floats (longitude, latitude, altitude, distances) are idealised
      as real numbers [R]; rounding, NaN and infinities are outside that model.
      Where rounding decides whether the code raises, the Distance Calculator
      is also given on IEEE binary64 numbers ([binary64]), with the functions
      of the C library as a parameter.
    - A [datetime.time] is the integer number of microseconds since midnight.
    - Fix objects live in a heap indexed by references; lists hold references,
      so that the in-place assignment [point.uphill = ...] is visible through
      every list that holds the object. A collection of fixes is a list of
      distinct references ([NoDup]): each position is an object of its own, as
      in the values of the Deduplicator's dictionary.
    - A raised exception is [None] in the [option] monad. *)

From Stdlib Require Import Reals Lra Lia ZArith List Bool Arith.
From Stdlib Require Import Permutation Sorted FunctionalExtensionality.
From Stdlib Require String PrimFloat.
Import ListNotations.
Import String.StringSyntax.

Delimit Scope string_scope with string.

Open Scope R_scope.

(** ** The error monad *)

Definition bind {A B : Type} (m : option A) (k : A -> option B) : option B :=
  match m with
  | Some a => k a
  | None => None
  end.

Notation "x <- m ;; k" := (bind m (fun x => k))
  (at level 61, m at next level, right associativity).

(** ** Data model *)

(** [class GPSREC]: the constructor stores its five arguments. *)
Record GPSREC : Type := mkGPSREC {
  timestamp : Z;
  longitude : R;
  latitude : R;
  altitude : R;
  uphill : bool
}.

Definition ref : Type := nat.

(** Every Python reference designates an object: the heap is total. *)
Definition heap : Type := ref -> GPSREC.

Definition with_uphill (o : GPSREC) (b : bool) : GPSREC :=
  mkGPSREC (timestamp o) (longitude o) (latitude o) (altitude o) b.

(** [obj.uphill = b] for the object that [r] designates. *)
Definition set_uphill (h : heap) (r : ref) (b : bool) : heap :=
  fun r' => if Nat.eqb r' r then with_uphill (h r) b else h r'.

(** ** The [math] module on real numbers *)

Module math.

Definition radians (x : R) : R := x * PI / 180.

(** [math.sqrt] raises [ValueError] on a negative argument. *)
Definition sqrt (x : R) : option R :=
  if Rlt_dec x 0 then None else Some (R_sqrt.sqrt x).

(** [math.atan2 y x]: the angle of the point [(x, y)], in (-PI, PI]. *)
Definition atan2 (y x : R) : R :=
  if Rlt_dec 0 x then atan (y / x)
  else if Rlt_dec x 0 then
    (if Rle_dec 0 y then atan (y / x) + PI else atan (y / x) - PI)
  else if Rlt_dec 0 y then PI / 2
  else if Rlt_dec y 0 then - (PI / 2)
  else 0.

End math.

(** ** Distance Calculator *)

Definition get_distance_between_locations (point1 point2 : GPSREC) : option R :=
  let lat1 := math.radians (latitude point1) in
  let lon1 := math.radians (longitude point1) in
  let lat2 := math.radians (latitude point2) in
  let lon2 := math.radians (longitude point2) in
  let dlat := lat2 - lat1 in
  let dlon := lon2 - lon1 in
  let a := sin (dlat / 2) ^ 2 + cos lat1 * cos lat2 * sin (dlon / 2) ^ 2 in
  sa <- math.sqrt a ;;
  sb <- math.sqrt (1 - a) ;;
  let c := 2 * math.atan2 sa sb in
  let km_earth_radius := 6371.0 in
  let distance := km_earth_radius * c in
  Some distance.

(** The haversine formula as section 4.2 of the specification words it, on
    coordinates in decimal degrees. *)
Definition haversine_a (lat1 lon1 lat2 lon2 : R) : R :=
  let phi1 := lat1 * PI / 180 in
  let phi2 := lat2 * PI / 180 in
  let lam1 := lon1 * PI / 180 in
  let lam2 := lon2 * PI / 180 in
  Rsqr (sin ((phi2 - phi1) / 2))
  + cos phi1 * cos phi2 * Rsqr (sin ((lam2 - lam1) / 2)).

Definition haversine_km (lat1 lon1 lat2 lon2 : R) : R :=
  let a := haversine_a lat1 lon1 lat2 lon2 in
  6371 * (2 * math.atan2 (R_sqrt.sqrt a) (R_sqrt.sqrt (1 - a))).

Definition haversine (p q : GPSREC) : R :=
  haversine_km (latitude p) (longitude p) (latitude q) (longitude q).

(** ** Distance Calculator on binary64 numbers *)

(** The same function on the doubles that Python computes with. The sums,
    products, differences, quotients, comparisons and square roots are the
    IEEE operations; [sin], [cos], [atan2] and [pow] (Python's [**]) belong to
    the C library and are a parameter. *)
Module binary64.

Import PrimFloat.
Local Open Scope float_scope.

Record libm : Type := mkLibm {
  sin : float -> float;
  cos : float -> float;
  atan2 : float -> float -> float;
  pow : float -> float -> float
}.

(** [math.radians(x)] multiplies by the double [pi / 180]. *)
Definition radians (x : float) : float := x * (0x1.921fb54442d18p+1 / 180).

(** [math.sqrt] raises [ValueError] on a negative argument. *)
Definition sqrt (x : float) : option float :=
  if x <? 0 then None else Some (PrimFloat.sqrt x).

Definition get_distance_between_locations (m : libm)
           (latitude1 longitude1 latitude2 longitude2 : float) : option float :=
  let lat1 := radians latitude1 in
  let lon1 := radians longitude1 in
  let lat2 := radians latitude2 in
  let lon2 := radians longitude2 in
  let dlat := lat2 - lat1 in
  let dlon := lon2 - lon1 in
  let a := pow m (sin m (dlat / 2)) 2
           + cos m lat1 * cos m lat2 * pow m (sin m (dlon / 2)) 2 in
  sa <- sqrt a ;;
  sb <- sqrt (1 - a) ;;
  let c := 2 * atan2 m sa sb in
  let km_earth_radius := 6371 in
  let distance := km_earth_radius * c in
  Some distance.

(** Two points that are nearly antipodal: (latitude -43.5577, longitude
    -28.3277) and (latitude 43.5577, longitude 151.6723), as the doubles
    nearest to these decimals. *)
Definition latitude1 : float := -0x1.5c762b6ae7d56p+5.
Definition longitude1 : float := -0x1.c53e425aee632p+4.
Definition latitude2 : float := 0x1.5c762b6ae7d56p+5.
Definition longitude2 : float := 0x1.2f5837b4a233ap+7.

(** The values of the C library at the arguments that occur for these two
    points: sin 0.760225279595934 = 0.689084718391098,
    sin 1.5707963267948968 = 1, cos (+-0.760225279595934) = 0.7246807924043946,
    0.689084718391098 ** 2 = 0.4748377491201388 and 1 ** 2 = 1. No other
    argument is reached; [atan2] is not reached at all. *)
Definition libm_near_antipodes : libm :=
  mkLibm
    (fun x => if x =? 0x1.853c3f72e9fafp-1 then 0x1.60cfb65353868p-1
              else if x =? 0x1.921fb54442d19p+0 then 1 else nan)
    (fun x => if abs x =? 0x1.853c3f72e9fafp-1 then 0x1.73095c5ed51d7p-1
              else nan)
    (fun _ _ => nan)
    (fun x _ => if x =? 0x1.60cfb65353868p-1 then 0x1.e63bdded824d9p-2
                else if x =? 1 then 1 else nan).

(** The haversine term [a] of [get_distance_between_locations]. *)
Definition haversine_term (m : libm)
           (latitude1 longitude1 latitude2 longitude2 : float) : float :=
  let lat1 := radians latitude1 in
  let lon1 := radians longitude1 in
  let lat2 := radians latitude2 in
  let lon2 := radians longitude2 in
  let dlat := lat2 - lat1 in
  let dlon := lon2 - lon1 in
  pow m (sin m (dlat / 2)) 2
  + cos m lat1 * cos m lat2 * pow m (sin m (dlon / 2)) 2.

(** The double that follows 1. *)
Definition next_after_one : float := 0x1.0000000000001p+0.

End binary64.

(** ** Deduplicator *)

(** The dictionary [coordinates]: keys are [(longitude, latitude)] tuples.
    A Python dict iterates in the order in which its keys were first inserted,
    and assigning to a key that is present keeps the key's position, so the
    dictionary is an association list without repeated keys. *)
Definition coordinate : Type := (R * R)%type.

Definition coordinate_eq_dec (k1 k2 : coordinate) : {k1 = k2} + {k1 <> k2}.
Proof.
  destruct k1 as [x1 y1], k2 as [x2 y2].
  destruct (Req_dec_T x1 x2) as [Hx | Hx].
  - destruct (Req_dec_T y1 y2) as [Hy | Hy].
    + left. rewrite Hx, Hy. reflexivity.
    + right. intros E. apply Hy. inversion E. reflexivity.
  - right. intros E. apply Hx. inversion E. reflexivity.
Defined.

Arguments coordinate_eq_dec : simpl never.

Definition dict : Type := list (coordinate * ref).

(** [coordinates[k]], [None] when [k not in coordinates]. *)
Fixpoint dict_get (k : coordinate) (d : dict) : option ref :=
  match d with
  | [] => None
  | (k', v) :: d' => if coordinate_eq_dec k k' then Some v else dict_get k d'
  end.

(** [coordinates[k] = v]. *)
Fixpoint dict_set (k : coordinate) (v : ref) (d : dict) : dict :=
  match d with
  | [] => [(k, v)]
  | (k', v') :: d' =>
      if coordinate_eq_dec k k' then (k', v) :: d'
      else (k', v') :: dict_set k v d'
  end.

(** [coordinates.values()]. *)
Definition dict_values (d : dict) : list ref := map snd d.

Definition dict_keys (d : dict) : list coordinate := map fst d.

Definition coordinate_of (h : heap) (r : ref) : coordinate :=
  (longitude (h r), latitude (h r)).

(** Every entry is filed under the coordinate of its fix. *)
Definition keyed (h : heap) (d : dict) : Prop :=
  Forall (fun kv => fst kv = coordinate_of h (snd kv)) d.

Definition minimum_elapsed_time : Z := 120.

(** [elapsed_time.total_seconds() > s] for a [timedelta] of [elapsed_time]
    microseconds. *)
Definition total_seconds_gt (elapsed_time s : Z) : bool :=
  (s * 1000000 <? elapsed_time)%Z.

(** One iteration of [for coord in data]. Both [datetime.combine] calls use
    the same day, so [d1 - d2] is the difference of the times of day. *)
Definition clean_gga_step (h : heap) (coordinates : dict) (coord : ref) : dict :=
  let k := coordinate_of h coord in
  match dict_get k coordinates with
  | None => dict_set k coord coordinates
  | Some record =>
      let d1 := timestamp (h record) in
      let d2 := timestamp (h coord) in
      let elapsed_time := Z.abs (d1 - d2) in
      if total_seconds_gt elapsed_time minimum_elapsed_time
      then dict_set k coord coordinates
      else coordinates
  end.

Definition clean_gga_data (h : heap) (data : list ref) : list ref :=
  dict_values (fold_left (clean_gga_step h) data []).

(** ** Uphill Classifier *)

(** [sorted(l, key=key)]: Python's sort is stable, and a stable sort has one
    possible result; insertion from the right computes it. *)
Fixpoint insert_by (key : ref -> Z) (x : ref) (l : list ref) : list ref :=
  match l with
  | [] => [x]
  | y :: l' => if (key x <=? key y)%Z then x :: l else y :: insert_by key x l'
  end.

Definition sorted (key : ref -> Z) (l : list ref) : list ref :=
  fold_right (insert_by key) [] l.

(** A [for] loop whose body may raise. *)
Fixpoint for_each {S A : Type} (body : A -> S -> option S) (l : list A) (s : S)
  : option S :=
  match l with
  | [] => Some s
  | x :: l' => s' <- body x s ;; for_each body l' s'
  end.

Definition range (n : nat) : list nat := seq 0 n.

Definition point_to_point_elevation_threshold : R := 0.3.

Definition significant_distance_of_elevation_threshold : R := 10.0.

(** Is the step from fix [i] to fix [i + 1] an ascent? *)
Definition going_uphill (h : heap) (l : list ref) (i : nat) : bool :=
  if Rge_dec (altitude (h (nth (i + 1) l O)) - altitude (h (nth i l O)))
             point_to_point_elevation_threshold
  then true else false.

(** Body of the first loop of [detect_uphill]; [n] is [len(data)]. *)
Definition pass1_body (l : list ref) (n : nat) (h : heap) (i : nat) : heap :=
  if (i + 1 <? n)%nat then
    if going_uphill h l i then set_uphill h (nth i l O) true else h
  else h.

Definition pass1 (h : heap) (l : list ref) (n : nat) : heap :=
  fold_left (pass1_body l n) (range n) h.

(** [for point in segment: point.uphill = False]. *)
Definition reset_segment (h : heap) (segment : list ref) : heap :=
  fold_left (fun h' point => set_uphill h' point false) segment h.

(** The [else] branch of the second loop once [segment] is known to be
    non-empty. The value of [sorted(segment, ...)] is dropped by the source,
    so that call has no effect. *)
Definition flush (h : heap) (segment : list ref) : option heap :=
  let start_location := nth 0 segment O in
  let end_location := last segment O in
  d <- get_distance_between_locations (h start_location) (h end_location) ;;
  let distance := d * 1000 in
  if Rlt_dec distance significant_distance_of_elevation_threshold
  then Some (reset_segment h segment)
  else Some h.

(** One iteration of the second loop on the element [cur]; the state is the
    heap and the list [segment]. *)
Definition pass2_step (cur : ref) (st : heap * list ref)
  : option (heap * list ref) :=
  let (h, segment) := st in
  if uphill (h cur) then Some (h, segment ++ [cur])
  else if (length segment =? 0)%nat then Some (h, segment)
  else h' <- flush h segment ;; Some (h', []).

Definition pass2_body (l : list ref) (i : nat) (st : heap * list ref)
  : option (heap * list ref) :=
  pass2_step (nth i l O) st.

Definition pass2 (h : heap) (l : list ref) : option heap :=
  st <- for_each (pass2_body l) (range (length l)) (h, []) ;;
  Some (fst st).

(** [detect_uphill(data)] on the heap [h]: the final heap and the returned
    list. *)
Definition detect_uphill (h : heap) (data : list ref)
  : option (heap * list ref) :=
  let sort_by_timestamp := fun record => timestamp (h record) in
  let detecting_uphill_data := sorted sort_by_timestamp data in
  let h1 := pass1 h detecting_uphill_data (length data) in
  h2 <- pass2 h1 detecting_uphill_data ;;
  Some (h2, detecting_uphill_data).

(** ** Vocabulary of the properties *)

(** Two records that differ at most in their [uphill] flag. *)
Definition same_fix (o o' : GPSREC) : Prop :=
  timestamp o = timestamp o' /\ longitude o = longitude o'
  /\ latitude o = latitude o' /\ altitude o = altitude o'.

Definition all_false (h : heap) (l : list ref) : Prop :=
  forall r, In r l -> uphill (h r) = false.

Definition flagged (h : heap) (r : ref) : Prop := uphill (h r) = true.

Definition by_key (key : ref -> Z) (a b : ref) : Prop := (key a <= key b)%Z.

Definition by_timestamp (h : heap) : ref -> ref -> Prop :=
  by_key (fun r => timestamp (h r)).

(** [l'] keeps the fixes of equal key in the order they have in [l]. *)
Definition stable_wrt (key : ref -> Z) (l l' : list ref) : Prop :=
  forall t : Z,
    filter (fun r => (key r =? t)%Z) l' = filter (fun r => (key r =? t)%Z) l.

(** [r] lies in a maximal contiguous run of flagged fixes of [l] whose first
    and last fix are at least 10 meters apart. *)
Definition significant_run (h : heap) (l : list ref) (r : ref) : Prop :=
  exists pre run post,
    l = pre ++ run ++ post /\ In r run
    /\ Forall (flagged h) run
    /\ (pre = [] \/ uphill (h (last pre O)) = false)
    /\ (post = [] \/ uphill (h (hd O post)) = false)
    /\ exists d,
         get_distance_between_locations (h (hd O run)) (h (last run O)) = Some d
         /\ 10 <= d * 1000.

(** ** Sample tracks *)

(** Four fixes one second apart. The second one is at the pole, the others at
    latitude 0; the third one arrives with its flag already set. *)
Definition preflagged_track : heap :=
  fun r =>
    match r with
    | 0%nat => mkGPSREC 0 0 0 0 false
    | 1%nat => mkGPSREC 1000000 0 90 1 false
    | 2%nat => mkGPSREC 2000000 0 0 2 true
    | _ => mkGPSREC 3000000 0 0 0 false
    end.

(** Three fixes one second apart, each 1 meter higher than the one before:
    at the equator, at the pole, and at latitude 45. *)
Definition climb_track : heap :=
  fun r =>
    match r with
    | 0%nat => mkGPSREC 0 0 0 0 false
    | 1%nat => mkGPSREC 1000000 0 90 1 false
    | _ => mkGPSREC 2000000 0 45 2 false
    end.

(** Every fix at the same place and altitude, flags set. *)
Definition flagged_track : heap :=
  fun r => mkGPSREC (Z.of_nat r) 0 0 0 true.

(** Every fix at the same place and altitude, flags clear, one microsecond
    apart. *)
Definition flat_track : heap :=
  fun r => mkGPSREC (Z.of_nat r) 0 0 0 false.

(** Every fix at the same place and altitude, flags clear, 200 seconds
    apart. *)
Definition slow_track : heap :=
  fun r => mkGPSREC (Z.of_nat r * 200000000) 0 0 0 false.

(** Three fixes with the same timestamp; the second one is at the pole. *)
Definition stalled_clock_track : heap :=
  fun r =>
    match r with
    | 0%nat => mkGPSREC 0 0 0 0 false
    | 1%nat => mkGPSREC 0 0 90 1 false
    | _ => mkGPSREC 0 0 0 2 false
    end.

(** ** Track Exporter *)

(** What [kml_generator] uses of the [simplekml] library: a document with a
    name and the line strings added to it, each with the three attributes the
    source assigns. *)
Module simplekml.

Inductive Color : Type := red | lightgreen.

Record LineString : Type := mkLineString {
  coords : list (R * R * R);
  color : Color;
  width : Z
}.

Record Kml : Type := mkKml {
  name : String.string;
  features : list LineString
}.

(** [kml.newlinestring()] followed by the assignments to the new line. *)
Definition newlinestring (kml : Kml) (ls : LineString) : Kml :=
  mkKml (name kml) (features kml ++ [ls]).

End simplekml.

(** The local function [reformat]; [float] is the identity on a number. *)
Definition reformat (coord : GPSREC) : R * R * R :=
  (longitude coord, latitude coord, altitude coord).

(** A [for] loop whose body may [break]: [None] leaves the loop. *)
Fixpoint for_break {S A : Type} (body : A -> S -> option S) (l : list A) (s : S)
  : S :=
  match l with
  | [] => s
  | x :: l' =>
      match body x s with
      | Some s' => for_break body l' s'
      | None => s
      end
  end.

Definition kml_body (h : heap) (uphill_detected : list ref) (i : nat)
           (kml : simplekml.Kml) : option simplekml.Kml :=
  if (length uphill_detected <=? i + 1)%nat then None
  else
    let point := reformat (h (nth i uphill_detected O)) in
    let next_point := reformat (h (nth (i + 1) uphill_detected O)) in
    let ls :=
      simplekml.mkLineString
        [point; next_point]
        (if uphill (h (nth i uphill_detected O))
         then simplekml.red else simplekml.lightgreen)
        6 in
    Some (simplekml.newlinestring kml ls).

(** [kml_generator(uphill_detected)]: the document saved as [result.kml]. *)
Definition kml_generator (h : heap) (uphill_detected : list ref)
  : simplekml.Kml :=
  for_break (kml_body h uphill_detected) (range (length uphill_detected))
            (simplekml.mkKml "Up Hill Detector"%string []).

(** ** Fix Parser boundary *)

(** Objects are created at the next unused reference. *)
Record store : Type := mkStore {
  objects : heap;
  allocated : nat
}.

(** [GPSREC(timestamp, longitude, latitude, altitude)]: a new object whose
    [uphill] takes the default [False]. *)
Definition new_GPSREC (s : store) (t : Z) (lon lat alt : R) : ref * store :=
  let r := allocated s in
  (r,
   mkStore (fun r' => if Nat.eqb r' r then mkGPSREC t lon lat alt false
                      else objects s r')
           (S r)).

(** What [pynmea2.parse(line.strip())] and the reading of the four attributes
    of the sentence give: a time of day and three numbers, a
    [pynmea2.ParseError], or any other exception. A sentence that parses but
    has an empty field (an attribute that is [None]) is not a [GPSREC] of
    the data model and has no outcome here: the properties of [read_gpgga]
    are about files without such sentences. *)
Inductive parse_outcome : Type :=
| Parsed (t : Z) (lon lat alt : R)
| ParseError
| Fault.

Definition gga_parser : Type := String.string -> parse_outcome.

(** State of the loop of [read_gpgga]: the list [gga_data], the store and
    the lines printed so far. *)
Definition reader_state : Type :=
  (list ref * store * list String.string)%type.

Definition read_gpgga_line (parse : gga_parser) (line : String.string)
           (st : reader_state) : option reader_state :=
  let '(gga_data, s, out) := st in
  if String.prefix "$GPGGA" line then
    match parse line with
    | Parsed t lon lat alt =>
        let (record, s') := new_GPSREC s t lon lat alt in
        Some (gga_data ++ [record], s', out)
    | ParseError => Some (gga_data, s, out ++ ["error parsing"%string])
    | Fault => None
    end
  else Some st.

(** The body of [read_gpgga] once the file is open (lines 56 and 58-68), on
    the lines of the file; [open(filename)] itself is not part of it. *)
Definition read_gpgga (parse : gga_parser) (lines : list String.string)
           (s : store) : option reader_state :=
  for_each (read_gpgga_line parse) lines ([], s, []).

(** ** The store when the program starts *)

(** No [GPSREC] exists when the program starts; the record at a reference
    that was never allocated is never read. *)
Definition empty_store : store :=
  mkStore (fun _ => mkGPSREC 0 0 0 0 false) 0.

(** ** Vocabulary of the further properties *)

(** Insertion of a key into the key order of a dictionary. *)
Definition add_key (ks : list coordinate) (k : coordinate) : list coordinate :=
  if in_dec coordinate_eq_dec k ks then ks else ks ++ [k].

Definition differs_from (k k' : coordinate) : bool :=
  if coordinate_eq_dec k' k then false else true.

Definition outside (ks : list coordinate) (k : coordinate) : bool :=
  if in_dec coordinate_eq_dec k ks then false else true.

(** Is [r] at the coordinate [k]? *)
Definition at_coordinate (h : heap) (k : coordinate) (r : ref) : bool :=
  if coordinate_eq_dec (coordinate_of h r) k then true else false.

(** The first element of each class of [l] under equality, in order. *)
Fixpoint first_occurrences (l : list coordinate) : list coordinate :=
  match l with
  | [] => []
  | k :: l' =>
      k :: filter (differs_from k) (first_occurrences l')
  end.

(** The line string that [kml_generator] draws from fix [i] to fix [i + 1]. *)
Definition line_from (h : heap) (l : list ref) (i : nat) : simplekml.LineString :=
  simplekml.mkLineString
    [reformat (h (nth i l O)); reformat (h (nth (i + 1) l O))]
    (if uphill (h (nth i l O)) then simplekml.red else simplekml.lightgreen)
    6.

(** The records that the lines of a file stand for: one per line that starts
    with [$GPGGA] and parses, in file order, flag clear. *)
Fixpoint parsed_records (parse : gga_parser) (lines : list String.string)
  : list GPSREC :=
  match lines with
  | [] => []
  | line :: lines' =>
      if String.prefix "$GPGGA" line then
        match parse line with
        | Parsed t lon lat alt =>
            mkGPSREC t lon lat alt false :: parsed_records parse lines'
        | _ => parsed_records parse lines'
        end
      else parsed_records parse lines'
  end.

(** Does the line start with [$GPGGA] and make the parser raise
    [ParseError], or another exception? *)
Definition parse_error_line (parse : gga_parser) (line : String.string) : bool :=
  String.prefix "$GPGGA" line
  && match parse line with ParseError => true | _ => false end.

Definition fault_line (parse : gga_parser) (line : String.string) : bool :=
  String.prefix "$GPGGA" line
  && match parse line with Fault => true | _ => false end.

(** A parser that accepts [$GPGGA,ok], rejects every other line with
    [ParseError], and a file of three lines. *)
Definition sample_parser : gga_parser :=
  fun line =>
    if String.eqb line "$GPGGA,ok" then Parsed 0 0 0 0 else ParseError.

Definition sample_lines : list String.string :=
  ["$GPGGA,ok"%string; "$GPGSA,ignored"%string; "$GPGGA,bad"%string].

(** * Properties *)

(** ** Distance Calculator *)

Section Distance.

Lemma Rsqr_sin_half (x : R) : Rsqr (sin (x / 2)) = (1 - cos x) / 2.
Proof.
  replace x with (2 * (x / 2)) at 2 by field.
  rewrite cos_2a_sin. unfold Rsqr. field.
Qed.

(** The haversine term lies in [0, 1], whatever the coordinates. *)
Lemma haversine_a_range (lat1 lon1 lat2 lon2 : R) :
  0 <= haversine_a lat1 lon1 lat2 lon2 <= 1.
Proof.
  unfold haversine_a.
  set (p1 := lat1 * PI / 180). set (p2 := lat2 * PI / 180).
  set (y := (lon2 * PI / 180 - lon1 * PI / 180) / 2).
  rewrite Rsqr_sin_half.
  assert (Hs : 0 <= Rsqr (sin y) <= 1).
  { split; [apply Rle_0_sqr |].
    rewrite sin2. pose proof (Rle_0_sqr (cos y)). lra. }
  pose proof (COS_bound (p2 - p1)) as Hu.
  pose proof (COS_bound (p2 + p1)) as Hv.
  rewrite cos_minus in Hu |- *. rewrite cos_plus in Hv.
  set (s := Rsqr (sin y)) in *.
  set (cc := cos p2 * cos p1) in *. set (ss := sin p2 * sin p1) in *.
  replace (cos p1 * cos p2) with cc by (unfold cc; ring).
  split; nra.
Qed.

Lemma math_sqrt_nonneg (x : R) :
  0 <= x -> math.sqrt x = Some (R_sqrt.sqrt x).
Proof.
  intros Hx. unfold math.sqrt. destruct (Rlt_dec x 0); [lra | reflexivity].
Qed.

(** The distance is defined on every pair of fixes and is the haversine
    distance of the specification. *)
Lemma get_distance_haversine (p q : GPSREC) :
  get_distance_between_locations p q = Some (haversine p q).
Proof.
  unfold get_distance_between_locations, haversine, haversine_km, math.radians.
  pose proof (haversine_a_range (latitude p) (longitude p)
                                (latitude q) (longitude q)) as Ha.
  unfold haversine_a in *. rewrite !Rsqr_pow2 in *.
  rewrite math_sqrt_nonneg by lra. cbn [bind].
  rewrite math_sqrt_nonneg by lra. cbn [bind].
  f_equal. f_equal. lra.
Qed.

Lemma haversine_a_sym (lat1 lon1 lat2 lon2 : R) :
  haversine_a lat1 lon1 lat2 lon2 = haversine_a lat2 lon2 lat1 lon1.
Proof.
  unfold haversine_a.
  replace ((lat1 * PI / 180 - lat2 * PI / 180) / 2)
    with (- ((lat2 * PI / 180 - lat1 * PI / 180) / 2)) by field.
  replace ((lon1 * PI / 180 - lon2 * PI / 180) / 2)
    with (- ((lon2 * PI / 180 - lon1 * PI / 180) / 2)) by field.
  rewrite !sin_neg, <- !Rsqr_neg. ring.
Qed.

Lemma haversine_sym (p q : GPSREC) : haversine p q = haversine q p.
Proof.
  unfold haversine, haversine_km. rewrite haversine_a_sym. reflexivity.
Qed.

Lemma atan2_0_1 : math.atan2 0 1 = 0.
Proof.
  unfold math.atan2. destruct (Rlt_dec 0 1); [| lra].
  replace (0 / 1) with 0 by field. apply atan_0.
Qed.

(** Two fixes at the same coordinate are at distance zero. *)
Lemma haversine_same_coordinate (p q : GPSREC) :
  latitude p = latitude q -> longitude p = longitude q -> haversine p q = 0.
Proof.
  intros Hlat Hlon. unfold haversine, haversine_km, haversine_a.
  rewrite Hlat, Hlon.
  replace ((latitude q * PI / 180 - latitude q * PI / 180) / 2) with 0
    by field.
  replace ((longitude q * PI / 180 - longitude q * PI / 180) / 2) with 0
    by field.
  rewrite sin_0, Rsqr_0, Rmult_0_r, Rplus_0_r, Rminus_0_r.
  rewrite sqrt_0, sqrt_1, atan2_0_1. ring.
Qed.

End Distance.

(** ** Deduplicator *)

Section Deduplicator.

Variable h : heap.

Lemma dict_keys_set_in (k : coordinate) (v : ref) (d : dict) :
  In k (dict_keys d) -> dict_keys (dict_set k v d) = dict_keys d.
Proof.
  unfold dict_keys. induction d as [| [k' v'] d IH]; cbn; intros Hin.
  - contradiction.
  - destruct (coordinate_eq_dec k k') as [E | N]; [reflexivity |].
    cbn. rewrite IH; [reflexivity |].
    destruct Hin as [E | Hin]; [congruence | exact Hin].
Qed.

Lemma dict_keys_set_out (k : coordinate) (v : ref) (d : dict) :
  ~ In k (dict_keys d) -> dict_keys (dict_set k v d) = dict_keys d ++ [k].
Proof.
  unfold dict_keys. induction d as [| [k' v'] d IH]; cbn; intros Hout.
  - reflexivity.
  - destruct (coordinate_eq_dec k k') as [E | N]; [subst; tauto |].
    cbn. rewrite IH; [reflexivity | tauto].
Qed.

Lemma dict_get_none (k : coordinate) (d : dict) :
  dict_get k d = None -> ~ In k (dict_keys d).
Proof.
  induction d as [| [k' v'] d IH]; cbn; intros E.
  - tauto.
  - destruct (coordinate_eq_dec k k'); [discriminate |].
    intros [H | H]; [congruence | exact (IH E H)].
Qed.

Lemma dict_get_some (k : coordinate) (v : ref) (d : dict) :
  dict_get k d = Some v -> In k (dict_keys d).
Proof.
  induction d as [| [k' v'] d IH]; cbn; intros E.
  - discriminate.
  - destruct (coordinate_eq_dec k k'); [left; congruence | right; exact (IH E)].
Qed.

Lemma dict_get_set_same (k : coordinate) (v : ref) (d : dict) :
  dict_get k (dict_set k v d) = Some v.
Proof.
  induction d as [| [k' v'] d IH]; cbn.
  - destruct (coordinate_eq_dec k k); [reflexivity | congruence].
  - destruct (coordinate_eq_dec k k') as [E | N]; cbn.
    + destruct (coordinate_eq_dec k k'); [reflexivity | congruence].
    + destruct (coordinate_eq_dec k k'); [congruence | exact IH].
Qed.

Lemma dict_get_set_other (k k' : coordinate) (v : ref) (d : dict) :
  k' <> k -> dict_get k' (dict_set k v d) = dict_get k' d.
Proof.
  intros N. induction d as [| [k0 v0] d IH]; cbn.
  - destruct (coordinate_eq_dec k' k); [congruence | reflexivity].
  - destruct (coordinate_eq_dec k k0) as [E | N0]; cbn.
    + destruct (coordinate_eq_dec k' k0); [congruence | reflexivity].
    + destruct (coordinate_eq_dec k' k0); [reflexivity | exact IH].
Qed.

Lemma dict_keys_set_NoDup (k : coordinate) (v : ref) (d : dict) :
  NoDup (dict_keys d) -> NoDup (dict_keys (dict_set k v d)).
Proof.
  intros Hd.
  destruct (in_dec coordinate_eq_dec k (dict_keys d)) as [Hin | Hout].
  - rewrite dict_keys_set_in; assumption.
  - rewrite dict_keys_set_out by assumption.
    apply NoDup_app; [exact Hd | repeat constructor; intros [] | ].
    intros x Hx [E | []]. subst x. exact (Hout Hx).
Qed.

Lemma dict_set_keyed (v : ref) (d : dict) :
  keyed h d -> keyed h (dict_set (coordinate_of h v) v d).
Proof.
  unfold keyed. induction d as [| [k' v'] d IH]; cbn; intros Hd.
  - repeat constructor.
  - inversion Hd as [| x l Hx Hl]; subst.
    destruct (coordinate_eq_dec (coordinate_of h v) k') as [E | N].
    + constructor; [cbn; congruence | exact Hl].
    + constructor; [exact Hx | exact (IH Hl)].
Qed.

Lemma clean_gga_step_inv (d : dict) (coord : ref) :
  NoDup (dict_keys d) /\ keyed h d ->
  NoDup (dict_keys (clean_gga_step h d coord))
  /\ keyed h (clean_gga_step h d coord).
Proof.
  intros [Hn Hk]. unfold clean_gga_step.
  destruct (dict_get (coordinate_of h coord) d) as [record |].
  - destruct (total_seconds_gt _ _).
    + split; [apply dict_keys_set_NoDup | apply dict_set_keyed]; assumption.
    + split; assumption.
  - split; [apply dict_keys_set_NoDup | apply dict_set_keyed]; assumption.
Qed.

Lemma clean_gga_fold_inv (data : list ref) (d : dict) :
  NoDup (dict_keys d) /\ keyed h d ->
  NoDup (dict_keys (fold_left (clean_gga_step h) data d))
  /\ keyed h (fold_left (clean_gga_step h) data d).
Proof.
  revert d. induction data as [| coord data IH]; cbn; intros d Hd.
  - exact Hd.
  - apply IH, clean_gga_step_inv, Hd.
Qed.

Lemma keyed_values (d : dict) :
  keyed h d -> map (coordinate_of h) (dict_values d) = dict_keys d.
Proof.
  unfold keyed, dict_values, dict_keys. induction 1 as [| kv d Hkv Hd IH]; cbn.
  - reflexivity.
  - rewrite IH, Hkv. reflexivity.
Qed.

End Deduplicator.

(** ** Sorting by key *)

Section Sorting.

Variable key : ref -> Z.

Lemma insert_by_perm (x : ref) (l : list ref) :
  Permutation (x :: l) (insert_by key x l).
Proof.
  induction l as [| y l IH]; cbn.
  - apply Permutation_refl.
  - destruct (key x <=? key y)%Z.
    + apply Permutation_refl.
    + eapply perm_trans; [apply perm_swap | apply perm_skip, IH].
Qed.

Lemma sorted_perm (l : list ref) : Permutation l (sorted key l).
Proof.
  induction l as [| x l IH]; cbn.
  - constructor.
  - eapply perm_trans; [apply perm_skip, IH | apply insert_by_perm].
Qed.

Lemma sorted_length (l : list ref) : length (sorted key l) = length l.
Proof. symmetry. apply Permutation_length, sorted_perm. Qed.

Lemma insert_by_HdRel (a x : ref) (l : list ref) :
  by_key key a x -> HdRel (by_key key) a l ->
  HdRel (by_key key) a (insert_by key x l).
Proof.
  intros Hax Hl. destruct l as [| y l]; cbn.
  - constructor. exact Hax.
  - destruct (key x <=? key y)%Z; constructor.
    + exact Hax.
    + inversion Hl; assumption.
Qed.

Lemma insert_by_Sorted (x : ref) (l : list ref) :
  Sorted (by_key key) l -> Sorted (by_key key) (insert_by key x l).
Proof.
  induction 1 as [| y l Hl IH Hy]; cbn.
  - repeat constructor.
  - destruct (key x <=? key y)%Z eqn:E.
    + constructor; [constructor; assumption |].
      constructor. unfold by_key. lia.
    + constructor; [exact IH |].
      apply insert_by_HdRel; [unfold by_key; lia | exact Hy].
Qed.

Lemma sorted_Sorted (l : list ref) : Sorted (by_key key) (sorted key l).
Proof.
  induction l as [| x l IH]; cbn.
  - constructor.
  - apply insert_by_Sorted, IH.
Qed.

Lemma sorted_StronglySorted (l : list ref) :
  StronglySorted (by_key key) (sorted key l).
Proof.
  apply Sorted_StronglySorted; [| apply sorted_Sorted].
  intros a b c Hab Hbc. unfold by_key in *. lia.
Qed.

Lemma insert_by_filter (t : Z) (x : ref) (l : list ref) :
  filter (fun r => (key r =? t)%Z) (insert_by key x l)
  = filter (fun r => (key r =? t)%Z) (x :: l).
Proof.
  induction l as [| y l IH]; cbn.
  - reflexivity.
  - destruct (key x <=? key y)%Z eqn:E; [reflexivity |].
    cbn in *. rewrite IH.
    destruct (key x =? t)%Z eqn:Ex, (key y =? t)%Z eqn:Ey;
      try reflexivity; lia.
Qed.

(** The sort keeps fixes of equal key in their original order. *)
Lemma sorted_stable (l : list ref) : stable_wrt key l (sorted key l).
Proof.
  intros t. induction l as [| x l IH].
  - reflexivity.
  - change (sorted key (x :: l)) with (insert_by key x (sorted key l)).
    rewrite insert_by_filter. cbn [filter]. rewrite IH. reflexivity.
Qed.


End Sorting.


(** ** The heap *)

Lemma same_fix_refl (o : GPSREC) : same_fix o o.
Proof. repeat split. Qed.

Lemma same_fix_trans (o1 o2 o3 : GPSREC) :
  same_fix o1 o2 -> same_fix o2 o3 -> same_fix o1 o3.
Proof.
  unfold same_fix. intros (A1 & A2 & A3 & A4) (B1 & B2 & B3 & B4).
  repeat split; congruence.
Qed.



Lemma set_uphill_same (h : heap) (r : ref) (b : bool) :
  uphill (set_uphill h r b r) = b.
Proof. unfold set_uphill. rewrite Nat.eqb_refl. reflexivity. Qed.

Lemma set_uphill_other (h : heap) (r r' : ref) (b : bool) :
  r' <> r -> set_uphill h r b r' = h r'.
Proof.
  intros N. unfold set_uphill.
  destruct (Nat.eqb_spec r' r); [contradiction | reflexivity].
Qed.

Lemma set_uphill_same_fix (h : heap) (r x : ref) (b : bool) :
  same_fix (h x) (set_uphill h r b x).
Proof.
  unfold set_uphill. destruct (Nat.eqb_spec x r) as [E | N].
  - subst. repeat split.
  - apply same_fix_refl.
Qed.

Lemma haversine_same_fix (p p' q q' : GPSREC) :
  same_fix p p' -> same_fix q q' -> haversine p' q' = haversine p q.
Proof.
  unfold same_fix, haversine. intros (_ & A2 & A3 & _) (_ & B2 & B3 & _).
  rewrite A2, A3, B2, B3. reflexivity.
Qed.

(** ** Pass 1 *)

Section Pass1.

Variables (l : list ref) (n : nat).

Lemma going_uphill_same_fix (h h' : heap) (i : nat) :
  (forall r, same_fix (h r) (h' r)) ->
  going_uphill h' l i = going_uphill h l i.
Proof.
  intros Hf. unfold going_uphill.
  destruct (Hf (nth (i + 1) l O)) as (_ & _ & _ & E1).
  destruct (Hf (nth i l O)) as (_ & _ & _ & E2).
  rewrite E1, E2. reflexivity.
Qed.

(** State of the heap after the iterations [0 .. k-1] of the first loop. *)
Lemma pass1_prefix (h : heap) (k : nat) :
  let hk := fold_left (pass1_body l n) (seq 0 k) h in
  (forall r, same_fix (h r) (hk r))
  /\ (forall r, uphill (hk r) = true <->
                uphill (h r) = true
                \/ exists i, (i < k)%nat /\ (i + 1 < n)%nat
                             /\ nth i l O = r /\ going_uphill h l i = true)
  /\ (forall r, (forall i, (i < k)%nat -> nth i l O <> r) -> hk r = h r).
Proof.
  induction k as [| k IH]; cbn zeta.
  - cbn. split; [intros; apply same_fix_refl | split].
    + intros r. split; [tauto |]. intros [H | (i & Hi & _)]; [exact H | lia].
    + reflexivity.
  - rewrite seq_S, fold_left_app. cbn [fold_left Nat.add].
    set (hk := fold_left (pass1_body l n) (seq 0 k) h) in *.
    cbn zeta in IH. destruct IH as (Hf & Hu & Ho).
    unfold pass1_body.
    rewrite (going_uphill_same_fix h hk k Hf).
    destruct (Nat.ltb_spec (k + 1) n) as [Hkn | Hkn];
      [destruct (going_uphill h l k) eqn:Hg |].
    + split; [| split].
      * intros r. eapply same_fix_trans; [apply Hf | apply set_uphill_same_fix].
      * intros r. destruct (Nat.eq_dec r (nth k l O)) as [E | N].
        -- subst r. rewrite set_uphill_same. split; [| reflexivity].
           intros _. right. exists k. repeat split; try lia. exact Hg.
        -- rewrite set_uphill_other by exact N. rewrite Hu.
           split; (intros [H | (i & Hi & Hin & Er & Hgi)]; [left; exact H |]).
           ++ right. exists i. repeat split; try assumption. lia.
           ++ right. exists i. repeat split; try assumption.
              assert (i <> k) by (intros ->; congruence). lia.
      * intros r Hr. rewrite set_uphill_other.
        -- apply Ho. intros i Hi. apply Hr. lia.
        -- intros E. apply (Hr k); [lia | congruence].
    + split; [exact Hf | split].
      * intros r. rewrite Hu.
        split; (intros [H | (i & Hi & Hin & Er & Hgi)]; [left; exact H |]).
        -- right. exists i. repeat split; try assumption. lia.
        -- right. exists i. repeat split; try assumption.
           assert (i <> k) by (intros ->; congruence). lia.
      * intros r Hr. apply Ho. intros i Hi. apply Hr. lia.
    + split; [exact Hf | split].
      * intros r. rewrite Hu.
        split; (intros [H | (i & Hi & Hin & Er & Hgi)]; [left; exact H |]).
        -- right. exists i. repeat split; try assumption. lia.
        -- right. exists i. repeat split; try assumption. lia.
      * intros r Hr. apply Ho. intros i Hi. apply Hr. lia.
Qed.

Lemma pass1_same_fix (h : heap) (r : ref) : same_fix (h r) (pass1 h l n r).
Proof. apply (pass1_prefix h n). Qed.

Lemma pass1_flag (h : heap) (r : ref) :
  uphill (pass1 h l n r) = true <->
  uphill (h r) = true
  \/ exists i, (i + 1 < n)%nat /\ nth i l O = r /\ going_uphill h l i = true.
Proof.
  destruct (pass1_prefix h n) as (_ & Hu & _). cbn zeta in Hu.
  unfold pass1, range. rewrite Hu.
  split; (intros [H | (i & H)]; [left; exact H | right; exists i]).
  - tauto.
  - repeat split; try tauto. lia.
Qed.

Lemma pass1_frame (h : heap) (r : ref) :
  n = length l -> ~ In r l -> pass1 h l n r = h r.
Proof.
  intros Hn Hr. destruct (pass1_prefix h n) as (_ & _ & Ho).
  apply Ho. intros i Hi E. apply Hr. rewrite <- E. apply nth_In. lia.
Qed.

End Pass1.

(** ** Pass 2 *)

Section Pass2.

Lemma for_each_map {S A B : Type} (f : B -> S -> option S) (g : A -> B)
      (l : list A) (s : S) :
  for_each (fun a => f (g a)) l s = for_each f (map g l) s.
Proof.
  revert s. induction l as [| a l IH]; cbn; intros s; [reflexivity |].
  destruct (f (g a) s); cbn; [apply IH | reflexivity].
Qed.

Lemma map_nth_range (l : list ref) :
  map (fun i => nth i l O) (range (length l)) = l.
Proof.
  unfold range. induction l as [| x l IH]; [reflexivity |].
  cbn [length]. rewrite <- cons_seq, <- seq_shift. cbn [map nth].
  rewrite map_map. cbn [nth]. rewrite IH. reflexivity.
Qed.

(** The second loop visits the elements of the list in order. *)
Lemma pass2_loop_elements (l : list ref) (st : heap * list ref) :
  for_each (pass2_body l) (range (length l)) st = for_each pass2_step l st.
Proof.
  unfold pass2_body.
  rewrite (for_each_map pass2_step (fun i => nth i l O)), map_nth_range.
  reflexivity.
Qed.

Lemma pass2_elements (h : heap) (l : list ref) :
  pass2 h l = st <- for_each pass2_step l (h, []) ;; Some (fst st).
Proof. unfold pass2. rewrite pass2_loop_elements. reflexivity. Qed.

Lemma reset_segment_closed (seg : list ref) (h : heap) (r : ref) :
  reset_segment h seg r
  = if existsb (Nat.eqb r) seg then with_uphill (h r) false else h r.
Proof.
  unfold reset_segment. revert h.
  induction seg as [| a seg IH]; intros h; cbn [fold_left existsb].
  - reflexivity.
  - rewrite IH. unfold set_uphill.
    destruct (Nat.eqb_spec r a) as [E | N]; cbn [orb].
    + subst. destruct (existsb (Nat.eqb a) seg); reflexivity.
    + reflexivity.
Qed.

Lemma existsb_eqb_In (r : ref) (seg : list ref) :
  existsb (Nat.eqb r) seg = true <-> In r seg.
Proof.
  rewrite existsb_exists. split.
  - intros (x & Hx & E). apply Nat.eqb_eq in E. subst. exact Hx.
  - intros H. exists r. split; [exact H | apply Nat.eqb_refl].
Qed.

Lemma reset_segment_in (seg : list ref) (h : heap) (r : ref) :
  In r seg -> uphill (reset_segment h seg r) = false.
Proof.
  intros H. rewrite reset_segment_closed.
  apply existsb_eqb_In in H. rewrite H. reflexivity.
Qed.

Lemma reset_segment_out (seg : list ref) (h : heap) (r : ref) :
  ~ In r seg -> reset_segment h seg r = h r.
Proof.
  intros H. rewrite reset_segment_closed.
  destruct (existsb (Nat.eqb r) seg) eqn:E; [| reflexivity].
  apply existsb_eqb_In in E. contradiction.
Qed.

Lemma reset_segment_same_fix (seg : list ref) (h : heap) (r : ref) :
  same_fix (h r) (reset_segment h seg r).
Proof.
  rewrite reset_segment_closed.
  destruct (existsb (Nat.eqb r) seg); repeat split.
Qed.

Lemma reset_segment_le (seg : list ref) (h : heap) (r : ref) :
  uphill (reset_segment h seg r) = true -> uphill (h r) = true.
Proof.
  rewrite reset_segment_closed.
  destruct (existsb (Nat.eqb r) seg); cbn; [discriminate | tauto].
Qed.

(** A flush never raises: it resets the segment or leaves the heap alone. *)
Lemma flush_some (h : heap) (seg : list ref) :
  flush h seg
  = Some (if Rlt_dec (haversine (h (nth 0 seg O)) (h (last seg O)) * 1000)
                     significant_distance_of_elevation_threshold
          then reset_segment h seg else h).
Proof.
  unfold flush. rewrite get_distance_haversine. cbn [bind].
  destruct (Rlt_dec _ _); reflexivity.
Qed.

Lemma flush_props (h h' : heap) (seg : list ref) :
  flush h seg = Some h' ->
  (forall r, same_fix (h r) (h' r))
  /\ (forall r, uphill (h' r) = true -> uphill (h r) = true)
  /\ (forall r, ~ In r seg -> h' r = h r).
Proof.
  rewrite flush_some. intros E. injection E as <-.
  destruct (Rlt_dec _ _) as [Hlt | Hge].
  - split; [| split]; intros x.
    + apply reset_segment_same_fix.
    + apply reset_segment_le.
    + apply reset_segment_out.
  - split; [| split]; intros x; auto using same_fix_refl.
Qed.

(** The second loop terminates normally from every state; it keeps every
    field but [uphill], only ever clears flags, and touches no fix outside
    the segment and the list. *)
Lemma pass2_loop_props (l : list ref) :
  forall (h : heap) (seg : list ref),
  exists h' seg',
    for_each pass2_step l (h, seg) = Some (h', seg')
    /\ (forall r, same_fix (h r) (h' r))
    /\ (forall r, uphill (h' r) = true -> uphill (h r) = true)
    /\ (forall r, ~ In r (seg ++ l) -> h' r = h r).
Proof.
  induction l as [| x l IH]; intros h seg.
  - exists h, seg. cbn. auto using same_fix_refl.
  - cbn [for_each pass2_step].
    destruct (uphill (h x)) eqn:Hx; [| destruct (length seg =? 0)%nat eqn:Hs].
    + cbn [bind]. destruct (IH h (seg ++ [x])) as (h' & seg' & E & Hf & Hle & Ho).
      exists h', seg'. split; [exact E | split; [exact Hf | split; [exact Hle |]]].
      intros r Hr. apply Ho. rewrite <- app_assoc. exact Hr.
    + cbn [bind]. destruct (IH h seg) as (h' & seg' & E & Hf & Hle & Ho).
      exists h', seg'. split; [exact E | split; [exact Hf | split; [exact Hle |]]].
      intros r Hr. apply Ho. intros Hin. apply Hr.
      apply in_app_or in Hin. apply in_or_app. cbn. tauto.
    + destruct (flush h seg) as [h1 |] eqn:Ef;
        [| rewrite flush_some in Ef; discriminate].
      cbn [bind]. destruct (flush_props _ _ _ Ef) as (Hf1 & Hle1 & Ho1).
      destruct (IH h1 []) as (h' & seg' & E & Hf & Hle & Ho).
      exists h', seg'. split; [exact E | split; [| split]].
      * intros r. eapply same_fix_trans; [apply Hf1 | apply Hf].
      * intros r Hr. apply Hle1, Hle, Hr.
      * intros r Hr. rewrite Ho, Ho1; [reflexivity | |].
        -- intros Hin. apply Hr, in_or_app. tauto.
        -- cbn. intros Hin. apply Hr, in_or_app. cbn. tauto.
Qed.

Lemma pass2_accumulate (h : heap) (run l seg : list ref) :
  Forall (flagged h) run ->
  for_each pass2_step (run ++ l) (h, seg)
  = for_each pass2_step l (h, seg ++ run).
Proof.
  intros Hrun. revert seg. induction Hrun as [| x run Hx Hrun IH]; intros seg.
  - rewrite app_nil_r. reflexivity.
  - cbn [app for_each pass2_step]. unfold flagged in Hx. rewrite Hx.
    cbn [bind]. rewrite IH, <- app_assoc. reflexivity.
Qed.


Lemma pass2_boundary (h : heap) (x : ref) (l seg : list ref) :
  uphill (h x) = false ->
  for_each pass2_step (x :: l) (h, seg)
  = match seg with
    | [] => for_each pass2_step l (h, [])
    | _ :: _ => h' <- flush h seg ;; for_each pass2_step l (h', [])
    end.
Proof.
  intros Hx. cbn [for_each pass2_step]. rewrite Hx.
  destruct seg as [| a seg]; cbn [length Nat.eqb bind]; [reflexivity |].
  destruct (flush h (a :: seg)); reflexivity.
Qed.

Lemma span_flagged (h : heap) (l : list ref) :
  l <> [] -> uphill (h (last l O)) = false ->
  exists run x rest,
    l = run ++ x :: rest /\ Forall (flagged h) run /\ uphill (h x) = false.
Proof.
  induction l as [| a l IH]; intros Hne Hlast; [congruence |].
  destruct (uphill (h a)) eqn:Ha.
  - destruct l as [| b l]; [cbn in Hlast; congruence |].
    destruct IH as (run & x & rest & E & Hrun & Hx); [discriminate | exact Hlast |].
    exists (a :: run), x, rest. rewrite E.
    split; [reflexivity | split; [constructor; assumption | exact Hx]].
  - exists [], a, l. split; [reflexivity | split; [constructor | exact Ha]].
Qed.

End Pass2.

(** ** Segments kept by pass 2 *)

Section Segments.

Lemma last_app_cons (l1 l2 : list ref) (x d : ref) :
  last (l1 ++ x :: l2) d = last (x :: l2) d.
Proof.
  induction l1 as [| a l1 IH]; [reflexivity |].
  cbn [app]. rewrite <- IH. cbn. destruct (l1 ++ x :: l2) eqn:E; [| reflexivity].
  destruct l1; discriminate.
Qed.

Lemma last_cons_cons (l : list ref) (x d : ref) :
  l <> [] -> last (x :: l) d = last l d.
Proof. destruct l; [congruence | reflexivity]. Qed.

Lemma last_In (l : list nat) (d : nat) : l <> [] -> In (last l d) l.
Proof.
  induction l as [| a l IH]; [congruence |]. intros _.
  destruct l as [| b l]; [left; reflexivity |].
  right. apply IH. discriminate.
Qed.

Lemma hd_In (l : list nat) (d : nat) : l <> [] -> In (hd d l) l.
Proof. destruct l; [congruence | left; reflexivity]. Qed.

(** What the boundary fix [x] does to the segment [run] that precedes it. *)
Lemma pass2_close_run (h : heap) (run rest : list ref) (x : ref) :
  uphill (h x) = false ->
  exists h1,
    for_each pass2_step (x :: rest) (h, run)
    = for_each pass2_step rest (h1, [])
    /\ (forall r, ~ In r run -> h1 r = h r)
    /\ (forall r, In r run -> uphill (h1 r) = true ->
          (forall y, h1 y = h y)
          /\ 10 <= haversine (h (hd O run)) (h (last run O)) * 1000).
Proof.
  intros Hx. rewrite pass2_boundary by exact Hx.
  destruct run as [| a run].
  - exists h. split; [reflexivity | split; [reflexivity |]].
    intros r [].
  - rewrite flush_some. cbn [bind].
    unfold significant_distance_of_elevation_threshold.
    destruct (Rlt_dec _ _) as [Hlt | Hge].
    + exists (reset_segment h (a :: run)).
      split; [reflexivity | split].
      * intros r. apply reset_segment_out.
      * intros r Hr Hu. rewrite reset_segment_in in Hu by exact Hr.
        discriminate.
    + exists h. split; [reflexivity | split; [reflexivity |]].
      intros r _ _. split; [reflexivity |].
      cbn [hd]. cbn [nth] in Hge. lra.
Qed.

(** On a list of distinct fixes that does not end with a flagged fix, the
    second loop ends with an empty [segment], and every fix that is still
    flagged lies in a maximal run of flagged fixes whose ends are at least
    10 meters apart. *)
Lemma pass2_runs (n : nat) :
  forall (l : list ref) (h : heap),
    (length l <= n)%nat -> NoDup l ->
    (l <> [] -> uphill (h (last l O)) = false) ->
    exists h',
      for_each pass2_step l (h, []) = Some (h', [])
      /\ forall r, In r l -> uphill (h' r) = true -> significant_run h' l r.
Proof.
  induction n as [| n IH]; intros l h Hlen Hnd Hlast.
  - destruct l; [| cbn in Hlen; lia].
    exists h. split; [reflexivity | intros r []].
  - destruct l as [| a0 l0]; [exists h; split; [reflexivity | intros r []] |].
    remember (a0 :: l0) as l eqn:El.
    assert (Hne : l <> []) by (subst; discriminate).
    destruct (span_flagged h l Hne (Hlast Hne))
      as (run & x & rest & E & Hrun & Hx).
    clear El a0 l0. subst l.
    (* distinctness of the three parts *)
    assert (Hnd_rest : NoDup rest).
    { apply NoDup_app_remove_l in Hnd. inversion Hnd; assumption. }
    assert (Hx_rest : ~ In x rest).
    { apply NoDup_app_remove_l in Hnd. inversion Hnd; assumption. }
    assert (Hx_run : ~ In x run).
    { apply NoDup_remove_2 in Hnd. intros H. apply Hnd, in_or_app. tauto. }
    assert (Hdisj : forall r, In r run -> ~ In r rest).
    { intros r Hr Hr'. apply NoDup_remove_1 in Hnd.
      revert Hnd. clear - Hr Hr'. induction run as [| a run IHr]; [destruct Hr |].
      cbn. intros Hnd. inversion Hnd as [| ? ? Ha Hnd']; subst.
      destruct Hr as [-> | Hr]; [| exact (IHr Hr Hnd')].
      apply Ha, in_or_app. tauto. }
    (* the loop up to and including the boundary fix *)
    rewrite (pass2_accumulate h run (x :: rest) [] Hrun). cbn [app].
    destruct (pass2_close_run h run rest x Hx) as (h1 & E1 & Hout1 & Hkept).
    rewrite E1.
    (* the rest of the list *)
    assert (Hlast1 : rest <> [] -> uphill (h1 (last rest O)) = false).
    { intros Hr. rewrite Hout1.
      - rewrite <- (last_cons_cons rest x O Hr), <- (last_app_cons run).
        apply Hlast. exact Hne.
      - intros Hin. exact (Hdisj _ Hin (last_In rest O Hr)). }
    assert (Hlen1 : (length rest <= n)%nat).
    { rewrite length_app in Hlen. cbn in Hlen. lia. }
    destruct (IH rest h1 Hlen1 Hnd_rest Hlast1) as (h' & E' & Hsig).
    destruct (pass2_loop_props rest h1 []) as (h'' & seg'' & E'' & _ & _ & Hout').
    rewrite E' in E''. injection E'' as <- <-. cbn [app] in Hout'.
    exists h'. split; [exact E' |].
    assert (Hx' : uphill (h' x) = false).
    { rewrite Hout', Hout1; assumption. }
    intros r Hr Hu. apply in_app_or in Hr. destruct Hr as [Hr | [-> | Hr]].
    + (* r lies in the first run *)
      rewrite Hout' in Hu by (apply Hdisj; exact Hr).
      destruct (Hkept r Hr Hu) as (Hsame & Hdist).
      assert (Hrun_ne : run <> []) by (intros ->; destruct Hr).
      assert (Hrun' : forall y, In y run -> h' y = h y).
      { intros y Hy. rewrite Hout', Hsame; [reflexivity | apply Hdisj, Hy]. }
      exists [], run, (x :: rest).
      split; [reflexivity | split; [exact Hr | split; [| split; [| split]]]].
      * apply Forall_forall. intros y Hy. unfold flagged.
        rewrite (Hrun' y Hy). rewrite Forall_forall in Hrun. apply Hrun, Hy.
      * left. reflexivity.
      * right. exact Hx'.
      * exists (haversine (h (hd O run)) (h (last run O))).
        rewrite get_distance_haversine.
        replace (h' (hd O run)) with (h (hd O run))
          by (symmetry; apply Hrun', hd_In, Hrun_ne).
        replace (h' (last run O)) with (h (last run O))
          by (symmetry; apply Hrun', last_In, Hrun_ne).
        split; [reflexivity | exact Hdist].
    + congruence.
    + (* r lies after the boundary fix *)
      destruct (Hsig r Hr Hu)
        as (pre & run' & post & Erest & Hin & Hfl & Hpre & Hpost & Hd).
      exists (run ++ x :: pre), run', post.
      split; [| split; [exact Hin | split; [exact Hfl | split; [| split]]]].
      * rewrite Erest, <- app_assoc. reflexivity.
      * right. rewrite last_app_cons.
        destruct pre as [| p pre]; [exact Hx' |].
        rewrite last_cons_cons by discriminate.
        destruct Hpre as [Hpre | Hpre]; [discriminate | exact Hpre].
      * exact Hpost.
      * exact Hd.
Qed.

End Segments.

(** ** The classifier as a whole *)

Section Classifier.

Variables (h : heap) (data : list ref).

Let l := sorted (fun r => timestamp (h r)) data.
Let h1 := pass1 h l (length data).

Lemma sorted_data_In (r : ref) : In r l <-> In r data.
Proof.
  split; apply Permutation_in;
    [apply Permutation_sym |]; apply sorted_perm.
Qed.

Lemma sorted_data_NoDup : NoDup data -> NoDup l.
Proof. apply Permutation_NoDup, sorted_perm. Qed.

Lemma sorted_data_length : length l = length data.
Proof. apply sorted_length. Qed.

(** [detect_uphill] always returns: the sorted list, and the heap that the
    second loop leaves. *)
Lemma detect_uphill_run :
  exists h2 seg,
    for_each pass2_step l (h1, []) = Some (h2, seg)
    /\ detect_uphill h data = Some (h2, l)
    /\ (forall r, same_fix (h r) (h2 r))
    /\ (forall r, uphill (h2 r) = true -> uphill (h1 r) = true)
    /\ (forall r, ~ In r data -> h2 r = h r).
Proof.
  destruct (pass2_loop_props l h1 []) as (h2 & seg & E & Hf & Hle & Ho).
  exists h2, seg. split; [exact E | split; [| split; [| split]]].
  - unfold detect_uphill. fold l. fold h1.
    rewrite pass2_elements, E. reflexivity.
  - intros r. eapply same_fix_trans; [apply pass1_same_fix | apply Hf].
  - exact Hle.
  - intros r Hr. rewrite Ho by (cbn; rewrite sorted_data_In; exact Hr).
    apply pass1_frame; [symmetry; apply sorted_data_length |].
    rewrite sorted_data_In. exact Hr.
Qed.

Lemma last_nth (m : list ref) :
  last m O = nth (length m - 1) m O.
Proof.
  induction m as [| a m IH]; [reflexivity |].
  destruct m as [| b m]; [reflexivity |].
  change (last (a :: b :: m) O) with (last (b :: m) O). rewrite IH.
  cbn [length]. replace (S (S (length m)) - 1)%nat with (S (length m - 0))
    by lia.
  cbn [nth]. replace (S (length m) - 1)%nat with (length m - 0)%nat by lia.
  reflexivity.
Qed.

(** With all flags initially false, pass 1 flags exactly the left ends of
    the ascending steps. *)
Lemma pass1_flag_index (i : nat) :
  NoDup data -> all_false h data -> (i < length l)%nat ->
  uphill (h1 (nth i l O)) = true
  <-> (i + 1 < length l)%nat /\ going_uphill h l i = true.
Proof.
  intros Hnd Hfalse Hi. unfold h1. rewrite pass1_flag.
  rewrite <- sorted_data_length. fold l. split.
  - intros [Hu | (j & Hj & Ej & Hg)].
    + rewrite Hfalse in Hu; [discriminate |].
      apply sorted_data_In, nth_In, Hi.
    + assert (j = i) as ->.
      { apply (proj1 (NoDup_nth l O) (sorted_data_NoDup Hnd)); [lia | lia | exact Ej]. }
      tauto.
  - intros [Hi' Hg]. right. exists i. tauto.
Qed.

Lemma pass1_last_unflagged :
  NoDup data -> all_false h data -> l <> [] ->
  uphill (h1 (last l O)) = false.
Proof.
  intros Hnd Hfalse Hne. rewrite last_nth.
  assert (Hlen : (0 < length l)%nat) by (destruct l; [congruence | cbn; lia]).
  destruct (uphill (h1 (nth (length l - 1) l O))) eqn:E; [| reflexivity].
  apply pass1_flag_index in E; [lia | assumption | assumption | lia].
Qed.



End Classifier.

(** ** Evaluating the loops on a concrete track *)

Section Evaluation.

(** A quarter of a meridian: from the equator to the pole. *)
Lemma haversine_quarter (p q : GPSREC) :
  latitude p = 0 -> latitude q = 90 -> longitude p = longitude q ->
  haversine p q = 6371 * (PI / 2).
Proof.
  intros Hp Hq Hlon. unfold haversine, haversine_km.
  assert (Ha : haversine_a (latitude p) (longitude p)
                           (latitude q) (longitude q) = 1 / 2).
  { unfold haversine_a. rewrite Hp, Hq, Hlon.
    replace ((longitude q * PI / 180 - longitude q * PI / 180) / 2) with 0
      by field.
    replace (90 * PI / 180) with (PI / 2) by field.
    rewrite Rsqr_sin_half.
    replace (PI / 2 - 0 * PI / 180) with (PI / 2) by field.
    rewrite cos_PI2, sin_0, Rsqr_0. field. }
  rewrite Ha. replace (1 - 1 / 2) with (1 / 2) by field.
  assert (Hs : 0 < sqrt (1 / 2)) by (apply sqrt_lt_R0; lra).
  unfold math.atan2. destruct (Rlt_dec 0 (sqrt (1 / 2))); [| contradiction].
  replace (sqrt (1 / 2) / sqrt (1 / 2)) with 1 by (field; lra).
  rewrite atan_1. field.
Qed.

Lemma going_uphill_true (h : heap) (l : list ref) (i : nat) :
  altitude (h (nth (i + 1) l O)) - altitude (h (nth i l O)) >= 0.3 ->
  going_uphill h l i = true.
Proof.
  intros H. unfold going_uphill, point_to_point_elevation_threshold.
  destruct (Rge_dec _ _); [reflexivity | contradiction].
Qed.

Lemma going_uphill_false (h : heap) (l : list ref) (i : nat) :
  altitude (h (nth (i + 1) l O)) - altitude (h (nth i l O)) < 0.3 ->
  going_uphill h l i = false.
Proof.
  intros H. unfold going_uphill, point_to_point_elevation_threshold.
  destruct (Rge_dec _ _); [lra | reflexivity].
Qed.

Lemma pass1_step_up (l : list ref) (n i : nat) (rest : list nat) (h : heap) :
  (i + 1 <? n)%nat = true ->
  altitude (h (nth (i + 1) l O)) - altitude (h (nth i l O)) >= 0.3 ->
  fold_left (pass1_body l n) (i :: rest) h
  = fold_left (pass1_body l n) rest (set_uphill h (nth i l O) true).
Proof.
  intros Hi Hg. cbn [fold_left]. unfold pass1_body at 2.
  rewrite Hi, going_uphill_true by exact Hg. reflexivity.
Qed.

Lemma pass1_step_flat (l : list ref) (n i : nat) (rest : list nat) (h : heap) :
  altitude (h (nth (i + 1) l O)) - altitude (h (nth i l O)) < 0.3 ->
  fold_left (pass1_body l n) (i :: rest) h
  = fold_left (pass1_body l n) rest h.
Proof.
  intros Hg. cbn [fold_left]. unfold pass1_body at 2.
  rewrite going_uphill_false by exact Hg.
  destruct (i + 1 <? n)%nat; reflexivity.
Qed.

Lemma pass1_step_last (l : list ref) (n i : nat) (rest : list nat) (h : heap) :
  (i + 1 <? n)%nat = false ->
  fold_left (pass1_body l n) (i :: rest) h
  = fold_left (pass1_body l n) rest h.
Proof.
  intros Hi. cbn [fold_left]. unfold pass1_body at 2.
  rewrite Hi. reflexivity.
Qed.

Lemma pass2_step_flagged (h : heap) (x : ref) (l seg : list ref) :
  uphill (h x) = true ->
  for_each pass2_step (x :: l) (h, seg)
  = for_each pass2_step l (h, seg ++ [x]).
Proof.
  intros Hx. cbn [for_each pass2_step]. rewrite Hx. reflexivity.
Qed.

Lemma flush_reset (h : heap) (seg : list ref) :
  haversine (h (nth 0 seg O)) (h (last seg O)) * 1000 < 10 ->
  flush h seg = Some (reset_segment h seg).
Proof.
  intros H. rewrite flush_some.
  unfold significant_distance_of_elevation_threshold.
  destruct (Rlt_dec _ _); [reflexivity | lra].
Qed.

Lemma flush_keep (h : heap) (seg : list ref) :
  10 <= haversine (h (nth 0 seg O)) (h (last seg O)) * 1000 ->
  flush h seg = Some h.
Proof.
  intros H. rewrite flush_some.
  unfold significant_distance_of_elevation_threshold.
  destruct (Rlt_dec _ _); [lra | reflexivity].
Qed.

End Evaluation.

(** ** Running the classifier again *)

Section Rerun.

Variables (l : list ref) (n : nat).


End Rerun.

(** * The claims of the specification *)

(** In exact arithmetic the Distance Calculator computes the haversine
    distance of section 4.2 with Earth radius 6371 km, and both [math.sqrt]
    calls get an argument in [0, 1]: no exception is raised there. *)
Theorem distance_is_haversine (point1 point2 : GPSREC) :
  get_distance_between_locations point1 point2
  = Some (haversine_km (latitude point1) (longitude point1)
                       (latitude point2) (longitude point2))
  /\ 0 <= haversine_a (latitude point1) (longitude point1)
                      (latitude point2) (longitude point2) <= 1.
Proof.
  split; [apply get_distance_haversine | apply haversine_a_range].
Qed.

(** C6. On doubles the Distance Calculator has an error case. For the points
    (latitude -43.5577, longitude -28.3277) and (latitude 43.5577, longitude
    151.6723) the haversine term rounds to the double that follows 1, so
    [1 - a] is negative and [math.sqrt(1 - a)] raises [ValueError]; nothing
    clamps [a] to [0, 1], the interval where it lies in exact arithmetic. *)
Theorem distance_raises_near_antipodes :
  binary64.haversine_term binary64.libm_near_antipodes
    binary64.latitude1 binary64.longitude1
    binary64.latitude2 binary64.longitude2
  = binary64.next_after_one
  /\ binary64.get_distance_between_locations binary64.libm_near_antipodes
       binary64.latitude1 binary64.longitude1
       binary64.latitude2 binary64.longitude2
     = None.
Proof.
  split.
  - vm_compute. reflexivity.
  - vm_compute. reflexivity.
Qed.

(** C9. The distance is symmetric in its two points, and the distance of a
    point to itself is zero. *)
Theorem distance_symmetric (A B : GPSREC) :
  get_distance_between_locations A B = get_distance_between_locations B A
  /\ get_distance_between_locations A A = Some 0.
Proof.
  rewrite !get_distance_haversine. split.
  - f_equal. apply haversine_sym.
  - f_equal. apply haversine_same_coordinate; reflexivity.
Qed.

(** C5. The output of the Deduplicator holds at most one fix per
    (longitude, latitude) pair, and an empty input gives an empty output. *)
Theorem dedup_unique_coordinates (h : heap) (data : list ref) :
  NoDup (map (coordinate_of h) (clean_gga_data h data))
  /\ clean_gga_data h [] = [].
Proof.
  split; [| reflexivity].
  unfold clean_gga_data.
  destruct (clean_gga_fold_inv h data []) as [Hn Hk].
  - split; constructor.
  - rewrite keyed_values by exact Hk. exact Hn.
Qed.

(** C4. When the incoming fix [coord] has the coordinate of a retained fix
    [record]: if their times of day differ by at most 120 seconds the
    dictionary is unchanged ([record] stays, [coord] is dropped); if they
    differ by more than 120 seconds [coord] takes the place of [record] and
    no other entry changes. *)
Theorem dedup_retention (h : heap) (coordinates : dict) (coord record : ref) :
  dict_get (coordinate_of h coord) coordinates = Some record ->
  ((Z.abs (timestamp (h record) - timestamp (h coord)) <= 120 * 1000000)%Z ->
     clean_gga_step h coordinates coord = coordinates)
  /\ ((Z.abs (timestamp (h record) - timestamp (h coord)) > 120 * 1000000)%Z ->
        dict_get (coordinate_of h coord) (clean_gga_step h coordinates coord)
        = Some coord
        /\ dict_keys (clean_gga_step h coordinates coord) = dict_keys coordinates
        /\ forall k, k <> coordinate_of h coord ->
             dict_get k (clean_gga_step h coordinates coord)
             = dict_get k coordinates).
Proof.
  intros Hget. unfold clean_gga_step. rewrite Hget.
  unfold total_seconds_gt, minimum_elapsed_time. split; intros Ht.
  - destruct (Z.ltb_spec (120 * 1000000)
                (Z.abs (timestamp (h record) - timestamp (h coord))));
      [lia | reflexivity].
  - destruct (Z.ltb_spec (120 * 1000000)
                (Z.abs (timestamp (h record) - timestamp (h coord))));
      [| lia].
    split; [apply dict_get_set_same | split].
    + apply dict_keys_set_in. exact (dict_get_some _ _ _ Hget).
    + intros k Hk. apply dict_get_set_other, Hk.
Qed.

(** The two-fix scenario of the specification: of two fixes at one coordinate
    the first is returned when they are at most 120 seconds apart, the second
    otherwise. *)
Lemma dedup_pair (h : heap) (a b : ref) :
  coordinate_of h a = coordinate_of h b ->
  clean_gga_data h [a; b]
  = if (120 * 1000000 <? Z.abs (timestamp (h a) - timestamp (h b)))%Z
    then [b] else [a].
Proof.
  intros E. unfold clean_gga_data. cbn [fold_left].
  unfold clean_gga_step at 2. cbn [dict_get dict_set].
  unfold clean_gga_step. rewrite <- E. cbn [dict_get].
  destruct (coordinate_eq_dec (coordinate_of h a) (coordinate_of h a));
    [| congruence].
  unfold total_seconds_gt, minimum_elapsed_time.
  destruct (120 * 1000000 <? _)%Z; [| reflexivity].
  cbn [dict_set].
  destruct (coordinate_eq_dec (coordinate_of h a) (coordinate_of h a));
    [reflexivity | congruence].
Qed.

(** C3. For distinct fixes whose flags are all false, after the stable sort by
    timestamp and the first loop, the fix at index [i] is flagged if and only
    if the altitude rises by at least 0.3 from index [i] to index [i + 1]; the
    last fix of the sorted list is not flagged. *)
Theorem pass1_flags_ascents (h : heap) (data : list ref) :
  NoDup data -> all_false h data ->
  let l := sorted (fun r => timestamp (h r)) data in
  let h1 := pass1 h l (length data) in
  Permutation data l
  /\ StronglySorted (by_timestamp h) l
  /\ stable_wrt (fun r => timestamp (h r)) data l
  /\ (forall i, (i + 1 < length l)%nat ->
        uphill (h1 (nth i l O)) = true
        <-> altitude (h1 (nth (i + 1) l O)) - altitude (h1 (nth i l O)) >= 0.3)
  /\ (l <> [] -> uphill (h1 (last l O)) = false).
Proof.
  intros Hnd Hfalse l h1.
  split; [apply sorted_perm | split; [apply sorted_StronglySorted | split]].
  - apply sorted_stable.
  - split.
    + intros i Hi. unfold h1, l.
      rewrite pass1_flag_index by (assumption || fold l; lia).
      fold l. fold h1.
      assert (Hf : forall r, same_fix (h r) (h1 r))
        by (intros r; apply pass1_same_fix).
      rewrite <- (going_uphill_same_fix l h h1 i Hf).
      unfold going_uphill, point_to_point_elevation_threshold.
      destruct (Rge_dec _ _) as [Hge | Hlt].
      * split; [intros _; exact Hge | intros _; split; [exact Hi | reflexivity]].
      * split; [intros [_ E]; discriminate | intros Hge; contradiction].
    + apply pass1_last_unflagged; assumption.
Qed.






(** C2. The second loop has no flush after its last iteration. On the single
    flagged fix of [flagged_track] the segment is still open when the loop
    ends and the fix stays flagged, although a flush of that segment (length
    0 meters) clears it. *)
Theorem trailing_segment_not_flushed :
  for_each pass2_step [0%nat] (flagged_track, []) = Some (flagged_track, [0%nat])
  /\ detect_uphill flagged_track [0%nat] = Some (flagged_track, [0%nat])
  /\ uphill (flagged_track 0%nat) = true
  /\ exists h', flush flagged_track [0%nat] = Some h'
                /\ uphill (h' 0%nat) = false.
Proof.
  split; [reflexivity | split; [reflexivity | split; [reflexivity |]]].
  exists (reset_segment flagged_track [0%nat]). split; [| reflexivity].
  apply flush_reset.
  rewrite haversine_same_coordinate by reflexivity. lra.
Qed.

(** * The theorems at concrete tracks *)

Lemma two_fixes_NoDup : NoDup [0; 1]%nat.
Proof.
  constructor.
  - intros [E | []]. discriminate E.
  - constructor; [intros [] | constructor].
Defined.

Lemma flat_track_all_false (l : list ref) : all_false flat_track l.
Proof. intros r _. reflexivity. Defined.





Lemma pass1_flags_ascents_witness :
  (NoDup [0; 1]%nat /\ all_false flat_track [0; 1]%nat)
  /\ uphill (pass1 flat_track
                   (sorted (fun r => timestamp (flat_track r)) [0; 1]%nat) 2
                   (last (sorted (fun r => timestamp (flat_track r))
                                 [0; 1]%nat) O))
     = false.
Proof.
  split; [split; [exact two_fixes_NoDup | apply flat_track_all_false] |].
  pose proof (pass1_flags_ascents flat_track [0; 1]%nat two_fixes_NoDup
                (flat_track_all_false _)) as H.
  cbv zeta in H. destruct H as (_ & _ & _ & _ & Hlast).
  apply Hlast. discriminate.
Defined.



Lemma retained_lookup (h : heap) :
  coordinate_of h 1%nat = coordinate_of h 0%nat ->
  dict_get (coordinate_of h 1%nat) [(coordinate_of h 0%nat, 0%nat)]
  = Some 0%nat.
Proof.
  intros E. cbn [dict_get].
  destruct (coordinate_eq_dec (coordinate_of h 1%nat) (coordinate_of h 0%nat));
    [reflexivity | contradiction].
Defined.

(** Fix 1 arrives at the coordinate of the retained fix 0: one microsecond
    later it is dropped, 200 seconds later it replaces fix 0. *)
Lemma dedup_retention_witness :
  clean_gga_step flat_track [(coordinate_of flat_track 0%nat, 0%nat)] 1%nat
  = [(coordinate_of flat_track 0%nat, 0%nat)]
  /\ dict_get (coordinate_of slow_track 1%nat)
              (clean_gga_step slow_track
                 [(coordinate_of slow_track 0%nat, 0%nat)] 1%nat)
     = Some 1%nat.
Proof.
  split.
  - apply (dedup_retention flat_track
             [(coordinate_of flat_track 0%nat, 0%nat)] 1%nat 0%nat).
    + apply retained_lookup. reflexivity.
    + cbn. lia.
  - apply (dedup_retention slow_track
             [(coordinate_of slow_track 0%nat, 0%nat)] 1%nat 0%nat).
    + apply retained_lookup. reflexivity.
    + cbn. lia.
Defined.

(** Why the fixes are required to be distinct objects: when the list holds
    one fix twice, the flag that the first loop sets through the first
    occurrence is read through the second one, and here the last element of
    the output ends flagged. *)
Remark shared_fix_stays_flagged :
  exists h',
    detect_uphill stalled_clock_track [0; 1; 2; 0]%nat
    = Some (h', [0; 1; 2; 0]%nat)
    /\ uphill (h' (last [0; 1; 2; 0]%nat O)) = true.
Proof.
  eexists. split.
  { unfold detect_uphill. rewrite pass2_elements.
    change (sorted _ [0; 1; 2; 0]%nat) with [0; 1; 2; 0]%nat.
    unfold pass1, range. cbn [length seq].
    rewrite pass1_step_up by (reflexivity || (cbn; lra)).
    rewrite pass1_step_up by (reflexivity || (cbn; lra)).
    rewrite pass1_step_flat by (cbn; lra).
    rewrite pass1_step_last by reflexivity.
    cbn [fold_left].
    rewrite !pass2_step_flagged by reflexivity.
    rewrite pass2_boundary by reflexivity. cbn [app].
    rewrite flush_keep.
    - cbn [bind]. rewrite pass2_step_flagged by reflexivity. reflexivity.
    - rewrite haversine_quarter by reflexivity. pose proof PI2_1. lra. }
  reflexivity.
Qed.

(** * Further properties of the code *)

(** ** Distance Calculator: range and arcs *)

Section DistanceMore.

Lemma atan2_quadrant (y x : R) :
  0 <= y -> 0 <= x -> 0 <= math.atan2 y x <= PI / 2.
Proof.
  intros Hy Hx. pose proof PI2_RGT_0 as Hpi. unfold math.atan2.
  destruct (Rlt_dec 0 x) as [Hpos | Hnpos].
  - pose proof (atan_bound (y / x)) as [_ Hub].
    split; [| lra].
    destruct (Req_dec y 0) as [-> | Hy0].
    + replace (0 / x) with 0 by (field; lra). rewrite atan_0. lra.
    + rewrite <- atan_0. left. apply atan_increasing.
      apply Rdiv_lt_0_compat; lra.
  - destruct (Rlt_dec x 0); [lra |].
    destruct (Rlt_dec 0 y); [lra |].
    destruct (Rlt_dec y 0); lra.
Qed.

Lemma atan2_sin_cos (x : R) :
  0 <= x <= PI / 2 -> math.atan2 (sin x) (cos x) = x.
Proof.
  intros [Hlo Hhi]. pose proof PI2_RGT_0 as Hpi. unfold math.atan2.
  destruct (Req_dec x (PI / 2)) as [-> | Hne].
  - rewrite cos_PI2, sin_PI2.
    destruct (Rlt_dec 0 0); [lra |].
    destruct (Rlt_dec 0 1); [reflexivity | lra].
  - assert (Hc : 0 < cos x) by (apply cos_gt_0; lra).
    destruct (Rlt_dec 0 (cos x)); [| contradiction].
    change (sin x / cos x) with (tan x). apply atan_tan. lra.
Qed.

(** When the haversine term is the squared sine of an angle of the first
    quadrant, the distance is the radius times twice that angle. *)
Lemma haversine_km_arc (lat1 lon1 lat2 lon2 x : R) :
  0 <= x <= PI / 2 ->
  haversine_a lat1 lon1 lat2 lon2 = Rsqr (sin x) ->
  haversine_km lat1 lon1 lat2 lon2 = 6371 * (2 * x).
Proof.
  intros Hx Ha. unfold haversine_km. rewrite Ha.
  assert (Hs : 0 <= sin x) by (apply sin_ge_0; pose proof PI2_RGT_0; lra).
  assert (Hc : 0 <= cos x) by (apply cos_ge_0; pose proof PI2_RGT_0; lra).
  rewrite sqrt_Rsqr by exact Hs.
  replace (1 - Rsqr (sin x)) with (Rsqr (cos x)) by (rewrite cos2; ring).
  rewrite sqrt_Rsqr by exact Hc.
  rewrite atan2_sin_cos by exact Hx. reflexivity.
Qed.

(** A distance that the function returns lies between 0 and half the
    circumference of the sphere. *)
Theorem distance_range (point1 point2 : GPSREC) (d : R) :
  get_distance_between_locations point1 point2 = Some d ->
  0 <= d <= 6371 * PI.
Proof.
  rewrite get_distance_haversine. intros E. injection E as <-.
  unfold haversine, haversine_km.
  pose proof (haversine_a_range (latitude point1) (longitude point1)
                                (latitude point2) (longitude point2)) as Ha.
  set (a := haversine_a _ _ _ _) in *.
  pose proof (atan2_quadrant (sqrt a) (sqrt (1 - a))
                             (sqrt_pos _) (sqrt_pos _)) as Hq.
  lra.
Qed.

(** Along a meridian the distance is the length of the arc: 6371 km times
    the difference of latitude in radians. *)
Theorem distance_along_meridian (point1 point2 : GPSREC) :
  longitude point1 = longitude point2 ->
  0 <= latitude point2 - latitude point1 <= 180 ->
  get_distance_between_locations point1 point2
  = Some (6371 * ((latitude point2 - latitude point1) * PI / 180)).
Proof.
  intros Hlon Hlat. rewrite get_distance_haversine. f_equal.
  unfold haversine.
  rewrite (haversine_km_arc _ _ _ _
             ((latitude point2 - latitude point1) * PI / 360)).
  - field.
  - pose proof PI_RGT_0. split; nra.
  - unfold haversine_a. rewrite Hlon.
    replace ((longitude point2 * PI / 180 - longitude point2 * PI / 180) / 2)
      with 0 by field.
    rewrite sin_0, Rsqr_0, Rmult_0_r, Rplus_0_r.
    f_equal. f_equal. field.
Qed.

(** Along the equator the distance is 6371 km times the difference of
    longitude in radians; one degree is 6371 * PI / 180 km. *)
Theorem distance_along_equator (point1 point2 : GPSREC) :
  latitude point1 = 0 -> latitude point2 = 0 ->
  0 <= longitude point2 - longitude point1 <= 180 ->
  get_distance_between_locations point1 point2
  = Some (6371 * ((longitude point2 - longitude point1) * PI / 180)).
Proof.
  intros H1 H2 Hlon. rewrite get_distance_haversine. f_equal.
  unfold haversine.
  rewrite (haversine_km_arc _ _ _ _
             ((longitude point2 - longitude point1) * PI / 360)).
  - field.
  - pose proof PI_RGT_0. split; nra.
  - unfold haversine_a. rewrite H1, H2.
    replace ((0 * PI / 180 - 0 * PI / 180) / 2) with 0 by field.
    replace (0 * PI / 180) with 0 by field.
    rewrite sin_0, cos_0, Rsqr_0.
    replace ((longitude point2 * PI / 180 - longitude point1 * PI / 180) / 2)
      with ((longitude point2 - longitude point1) * PI / 360) by field.
    ring.
Qed.

End DistanceMore.

(** ** Deduplicator: order, provenance, fixed points *)

Section DeduplicatorMore.

Variable h : heap.

Lemma clean_gga_step_keys (d : dict) (coord : ref) :
  dict_keys (clean_gga_step h d coord)
  = add_key (dict_keys d) (coordinate_of h coord).
Proof.
  unfold clean_gga_step, add_key.
  destruct (dict_get (coordinate_of h coord) d) as [record |] eqn:Eg.
  - apply dict_get_some in Eg.
    destruct (in_dec coordinate_eq_dec _ _) as [_ | Hout]; [| contradiction].
    destruct (total_seconds_gt _ _); [| reflexivity].
    apply dict_keys_set_in, Eg.
  - apply dict_get_none in Eg.
    destruct (in_dec coordinate_eq_dec _ _) as [Hin | _]; [contradiction |].
    apply dict_keys_set_out, Eg.
Qed.

Lemma clean_gga_fold_keys (data : list ref) (d : dict) :
  dict_keys (fold_left (clean_gga_step h) data d)
  = fold_left add_key (map (coordinate_of h) data) (dict_keys d).
Proof.
  revert d. induction data as [| coord data IH]; intros d; cbn [fold_left map].
  - reflexivity.
  - rewrite IH, clean_gga_step_keys. reflexivity.
Qed.

Lemma filter_twice {A : Type} (f g k : A -> bool) (l : list A) :
  (forall x, k x = g x && f x) -> filter k l = filter f (filter g l).
Proof.
  intros Hk. induction l as [| x l IH]; cbn; [reflexivity |].
  rewrite Hk. destruct (g x); cbn; [| exact IH].
  destruct (f x); rewrite IH; reflexivity.
Qed.

Lemma filter_all {A : Type} (f : A -> bool) (l : list A) :
  (forall x, f x = true) -> filter f l = l.
Proof.
  intros Hf. induction l as [| x l IH]; cbn; [reflexivity |].
  rewrite Hf, IH. reflexivity.
Qed.

Lemma outside_true (ks : list coordinate) (k : coordinate) :
  ~ In k ks -> outside ks k = true.
Proof.
  intros H. unfold outside. destruct (in_dec coordinate_eq_dec k ks);
    [contradiction | reflexivity].
Qed.

Lemma outside_false (ks : list coordinate) (k : coordinate) :
  In k ks -> outside ks k = false.
Proof.
  intros H. unfold outside. destruct (in_dec coordinate_eq_dec k ks);
    [reflexivity | contradiction].
Qed.

Lemma differs_from_spec (k k' : coordinate) :
  differs_from k k' = true <-> k' <> k.
Proof.
  unfold differs_from. destruct (coordinate_eq_dec k' k); split;
    congruence.
Qed.

Lemma add_keys_first_occurrences (l ks : list coordinate) :
  fold_left add_key l ks = ks ++ filter (outside ks) (first_occurrences l).
Proof.
  revert ks. induction l as [| k l IH]; intros ks;
    cbn [fold_left first_occurrences filter].
  - rewrite app_nil_r. reflexivity.
  - rewrite IH. unfold add_key.
    destruct (in_dec coordinate_eq_dec k ks) as [Hin | Hout].
    + rewrite (outside_false ks k Hin). f_equal.
      rewrite <- (filter_twice (outside ks) (differs_from k) (outside ks));
        [reflexivity |].
      intros x. destruct (differs_from k x) eqn:Ed; [reflexivity |].
      cbn. apply outside_false.
      destruct (coordinate_eq_dec x k) as [-> | N]; [exact Hin |].
      apply differs_from_spec in N. congruence.
    + rewrite (outside_true ks k Hout), <- app_assoc. cbn [app].
      f_equal. f_equal. apply filter_twice. intros x.
      destruct (differs_from k x) eqn:Ed; cbn.
      * apply differs_from_spec in Ed.
        destruct (in_dec coordinate_eq_dec x ks) as [Hx | Hx].
        -- rewrite (outside_false ks x Hx). apply outside_false.
           apply in_or_app. left. exact Hx.
        -- rewrite (outside_true ks x Hx). apply outside_true.
           intros H. apply in_app_or in H.
           destruct H as [H | [E | []]]; [contradiction | congruence].
      * apply outside_false, in_or_app. right. left.
        destruct (coordinate_eq_dec x k) as [-> | N]; [reflexivity |].
        apply differs_from_spec in N. congruence.
Qed.

Lemma in_first_occurrences (k : coordinate) (l : list coordinate) :
  In k (first_occurrences l) <-> In k l.
Proof.
  induction l as [| a l IH]; cbn [first_occurrences]; [tauto |].
  split.
  - intros [E | Hin]; [left; exact E |].
    apply filter_In in Hin. right. apply IH, Hin.
  - intros [E | Hin]; [left; exact E |].
    destruct (coordinate_eq_dec k a) as [-> | N]; [left; reflexivity |].
    right. apply filter_In. split; [apply IH, Hin |].
    unfold differs_from. destruct (coordinate_eq_dec k a); [contradiction |].
    reflexivity.
Qed.

(** The output lists the coordinates of the input in the order in which they
    first arrive. *)
Theorem dedup_order_of_first_arrival (data : list ref) :
  map (coordinate_of h) (clean_gga_data h data)
  = first_occurrences (map (coordinate_of h) data).
Proof.
  unfold clean_gga_data.
  destruct (clean_gga_fold_inv h data []) as [_ Hk]; [split; constructor |].
  rewrite keyed_values by exact Hk.
  rewrite clean_gga_fold_keys, add_keys_first_occurrences. cbn [dict_keys map app].
  apply filter_all. intros k. reflexivity.
Qed.

Lemma dict_values_set (k : coordinate) (v x : ref) (d : dict) :
  In x (dict_values (dict_set k v d)) -> x = v \/ In x (dict_values d).
Proof.
  unfold dict_values. induction d as [| [k' v'] d IH]; cbn.
  - intros [E | []]. left. congruence.
  - destruct (coordinate_eq_dec k k'); cbn.
    + intros [E | Hin]; [left; congruence | right; right; exact Hin].
    + intros [E | Hin]; [right; left; exact E |].
      destruct (IH Hin); tauto.
Qed.

Lemma clean_gga_fold_values (data : list ref) (d : dict) (x : ref) :
  In x (dict_values (fold_left (clean_gga_step h) data d)) ->
  In x (dict_values d) \/ In x data.
Proof.
  revert d. induction data as [| coord data IH]; intros d; cbn [fold_left].
  - tauto.
  - intros Hx. apply IH in Hx. destruct Hx as [Hx | Hx]; [| right; right; exact Hx].
    unfold clean_gga_step in Hx.
    destruct (dict_get _ d); [destruct (total_seconds_gt _ _) |];
      try (left; exact Hx);
      apply dict_values_set in Hx; destruct Hx as [-> | Hx];
      try (left; exact Hx); right; left; reflexivity.
Qed.

Lemma clean_gga_data_incl (data : list ref) :
  incl (clean_gga_data h data) data.
Proof.
  intros x Hx. apply clean_gga_fold_values in Hx. destruct Hx as [[] | Hx].
  exact Hx.
Qed.

Lemma clean_gga_data_NoDup (data : list ref) :
  NoDup (clean_gga_data h data).
Proof.
  apply (NoDup_map_inv (coordinate_of h)). unfold clean_gga_data.
  destruct (clean_gga_fold_inv h data []) as [Hn Hk]; [split; constructor |].
  rewrite keyed_values by exact Hk. exact Hn.
Qed.

Lemma clean_gga_data_keys (data : list ref) :
  map (coordinate_of h) (clean_gga_data h data)
  = fold_left add_key (map (coordinate_of h) data) [].
Proof.
  unfold clean_gga_data.
  destruct (clean_gga_fold_inv h data []) as [_ Hk]; [split; constructor |].
  rewrite keyed_values by exact Hk. apply clean_gga_fold_keys.
Qed.

(** Every returned fix is a fix of the input, no object is returned twice
    (even when the input holds an object twice), no more fixes are returned
    than were given, and every coordinate of the input is the coordinate of a
    returned fix. *)
Theorem dedup_selects (data : list ref) :
  incl (clean_gga_data h data) data
  /\ NoDup (clean_gga_data h data)
  /\ (length (clean_gga_data h data) <= length data)%nat
  /\ forall r, In r data ->
       exists r', In r' (clean_gga_data h data)
                  /\ coordinate_of h r' = coordinate_of h r.
Proof.
  pose proof (clean_gga_data_incl data) as Hincl.
  pose proof (clean_gga_data_NoDup data) as Hnd.
  split; [exact Hincl | split; [exact Hnd | split]].
  - apply NoDup_incl_length; assumption.
  - intros r Hr.
    assert (Hk : In (coordinate_of h r)
                    (map (coordinate_of h) (clean_gga_data h data))).
    { rewrite clean_gga_data_keys, add_keys_first_occurrences. cbn [app].
      rewrite filter_all by reflexivity.
      apply in_first_occurrences, in_map, Hr. }
    apply in_map_iff in Hk. destruct Hk as (r' & E & Hin).
    exists r'. split; assumption.
Qed.

Lemma dict_get_absent (k : coordinate) (d : dict) :
  ~ In k (dict_keys d) -> dict_get k d = None.
Proof.
  intros H. destruct (dict_get k d) eqn:E; [| reflexivity].
  apply dict_get_some in E. contradiction.
Qed.

Lemma dict_set_absent (k : coordinate) (v : ref) (d : dict) :
  ~ In k (dict_keys d) -> dict_set k v d = d ++ [(k, v)].
Proof.
  unfold dict_keys. induction d as [| [k' v'] d IH]; cbn; intros H.
  - reflexivity.
  - destruct (coordinate_eq_dec k k') as [-> | N]; [tauto |].
    rewrite IH by tauto. reflexivity.
Qed.

Lemma clean_gga_fold_distinct (data : list ref) (d : dict) :
  NoDup (dict_keys d ++ map (coordinate_of h) data) ->
  fold_left (clean_gga_step h) data d
  = d ++ map (fun r => (coordinate_of h r, r)) data.
Proof.
  revert d. induction data as [| coord data IH]; intros d Hnd;
    cbn [fold_left map].
  - rewrite app_nil_r. reflexivity.
  - cbn [map] in Hnd.
    assert (Hout : ~ In (coordinate_of h coord) (dict_keys d)).
    { apply NoDup_remove_2 in Hnd. intros H. apply Hnd, in_or_app. tauto. }
    unfold clean_gga_step at 2.
    rewrite dict_get_absent, dict_set_absent by exact Hout.
    rewrite IH.
    + rewrite <- app_assoc. reflexivity.
    + unfold dict_keys in *. rewrite map_app. cbn [map fst].
      rewrite <- app_assoc. exact Hnd.
Qed.

(** A list of fixes at pairwise different coordinates is returned as it is;
    so the Deduplicator applied to its own output changes nothing. *)
Theorem dedup_fixed_point (data : list ref) :
  (NoDup (map (coordinate_of h) data) -> clean_gga_data h data = data)
  /\ clean_gga_data h (clean_gga_data h data) = clean_gga_data h data.
Proof.
  assert (Hid : forall l, NoDup (map (coordinate_of h) l) ->
                          clean_gga_data h l = l).
  { intros l Hnd. unfold clean_gga_data.
    rewrite clean_gga_fold_distinct by exact Hnd.
    unfold dict_values. cbn [app]. rewrite map_map. cbn [snd]. apply map_id. }
  split; [apply Hid |].
  apply Hid. unfold clean_gga_data.
  destruct (clean_gga_fold_inv h data []) as [Hn Hk]; [split; constructor |].
  rewrite keyed_values by exact Hk. exact Hn.
Qed.

Lemma find_app_last (f : ref -> bool) (l : list ref) (c : ref) :
  find f (l ++ [c])
  = match find f l with
    | Some x => Some x
    | None => if f c then Some c else None
    end.
Proof.
  induction l as [| a l IH]; cbn; [reflexivity |].
  destruct (f a); [reflexivity | exact IH].
Qed.

Lemma find_none_all (f : ref -> bool) (l : list ref) :
  (forall x, In x l -> f x = false) -> find f l = None.
Proof.
  induction l as [| a l IH]; cbn; intros H; [reflexivity |].
  rewrite (H a) by tauto. apply IH. intros x Hx. apply H. tauto.
Qed.

Lemma at_coordinate_spec (k : coordinate) (r : ref) :
  at_coordinate h k r = true <-> coordinate_of h r = k.
Proof.
  unfold at_coordinate. destruct (coordinate_eq_dec (coordinate_of h r) k);
    split; congruence.
Qed.

(** While no fix is replaced, each entry of the dictionary is the first fix
    seen at its coordinate. *)
Lemma clean_gga_fold_first (data processed : list ref) (d : dict) :
  (forall a b, In a (processed ++ data) -> In b (processed ++ data) ->
     coordinate_of h a = coordinate_of h b ->
     (Z.abs (timestamp (h a) - timestamp (h b)) <= 120 * 1000000)%Z) ->
  (forall k v, In (k, v) d -> find (at_coordinate h k) processed = Some v) ->
  (forall x, In x processed -> In (coordinate_of h x) (dict_keys d)) ->
  forall k v, In (k, v) (fold_left (clean_gga_step h) data d) ->
    find (at_coordinate h k) (processed ++ data) = Some v.
Proof.
  revert processed d. induction data as [| c data IH];
    intros processed d Hwin Hfirst Hcov k v; cbn [fold_left].
  - rewrite app_nil_r. apply Hfirst.
  - replace (processed ++ c :: data) with ((processed ++ [c]) ++ data)
      by (rewrite <- app_assoc; reflexivity).
    apply IH.
    + rewrite <- app_assoc. exact Hwin.
    + intros k0 v0. unfold clean_gga_step.
      destruct (dict_get (coordinate_of h c) d) as [record |] eqn:Eg.
      * assert (Hrec : In (coordinate_of h c, record) d).
        { clear - Eg. induction d as [| [k' v'] d IHd]; cbn in *; [discriminate |].
          destruct (coordinate_eq_dec (coordinate_of h c) k') as [E | N].
          - left. congruence.
          - right. exact (IHd Eg). }
        pose proof (Hfirst _ _ Hrec) as Hf.
        pose proof (find_some _ _ Hf) as [Hin Hat].
        apply at_coordinate_spec in Hat.
        assert (Hle : (Z.abs (timestamp (h record) - timestamp (h c))
                       <= 120 * 1000000)%Z).
        { apply Hwin; [apply in_or_app; tauto | | exact Hat].
          apply in_or_app. right. left. reflexivity. }
        unfold total_seconds_gt, minimum_elapsed_time.
        destruct (Z.ltb_spec (120 * 1000000)
                    (Z.abs (timestamp (h record) - timestamp (h c))));
          [lia |].
        intros Hkv. rewrite find_app_last, (Hfirst _ _ Hkv). reflexivity.
      * apply dict_get_none in Eg. rewrite dict_set_absent by exact Eg.
        intros Hkv. apply in_app_or in Hkv. rewrite find_app_last.
        destruct Hkv as [Hkv | [E | []]].
        -- rewrite (Hfirst _ _ Hkv). reflexivity.
        -- injection E as <- <-. rewrite find_none_all.
           ++ rewrite (proj2 (at_coordinate_spec _ _) eq_refl). reflexivity.
           ++ intros x Hx. destruct (at_coordinate h (coordinate_of h c) x) eqn:Ea;
                [| reflexivity].
              apply at_coordinate_spec in Ea. apply Hcov in Hx.
              rewrite Ea in Hx. contradiction.
    + intros x Hx. rewrite clean_gga_step_keys. unfold add_key.
      apply in_app_or in Hx.
      destruct (in_dec coordinate_eq_dec (coordinate_of h c) (dict_keys d))
        as [Hin | Hout].
      * destruct Hx as [Hx | [<- | []]]; [apply Hcov, Hx | exact Hin].
      * apply in_or_app. destruct Hx as [Hx | [<- | []]];
          [left; apply Hcov, Hx | right; left; reflexivity].
Qed.

(** When any two fixes of the input at the same coordinate are at most 120
    seconds apart, each returned fix is the first fix of the input at its
    coordinate. *)
Theorem dedup_first_within_window (data : list ref) :
  (forall a b, In a data -> In b data ->
     coordinate_of h a = coordinate_of h b ->
     (Z.abs (timestamp (h a) - timestamp (h b)) <= 120 * 1000000)%Z) ->
  forall r, In r (clean_gga_data h data) ->
    find (at_coordinate h (coordinate_of h r)) data = Some r.
Proof.
  intros Hwin r Hr. unfold clean_gga_data, dict_values in Hr.
  apply in_map_iff in Hr. destruct Hr as ([k v] & E & Hin). cbn in E. subst v.
  pose proof (clean_gga_fold_first data [] [] Hwin) as Hf. cbn [app] in Hf.
  assert (Hk : find (at_coordinate h k) data = Some r).
  { apply Hf; [intros ? ? [] | intros ? [] | exact Hin]. }
  pose proof (find_some _ _ Hk) as [_ Hat]. apply at_coordinate_spec in Hat.
  rewrite Hat. exact Hk.
Qed.

Lemma dict_get_entry (k : coordinate) (v : ref) (d : dict) :
  dict_get k d = Some v -> In (k, v) d.
Proof.
  induction d as [| [k' v'] d IH]; cbn; [discriminate |].
  destruct (coordinate_eq_dec k k') as [E | N].
  - intros Ev. left. congruence.
  - intros Ev. right. exact (IH Ev).
Qed.

Lemma dict_set_entries (k k0 : coordinate) (v v0 : ref) (d : dict) :
  NoDup (dict_keys d) ->
  In (k0, v0) (dict_set k v d) ->
  (k0 = k /\ v0 = v) \/ (k0 <> k /\ In (k0, v0) d).
Proof.
  unfold dict_keys. induction d as [| [k' v'] d IH]; cbn; intros Hnd.
  - intros [E | []]. left. split; congruence.
  - inversion Hnd as [| ? ? Hk' Hnd']; subst.
    destruct (coordinate_eq_dec k k') as [<- | N]; cbn.
    + intros [E | Hin]; [left; split; congruence |].
      right. split; [| right; exact Hin].
      intros ->. apply Hk'. apply (in_map fst) in Hin. exact Hin.
    + intros [E | Hin].
      * right. injection E as <- <-. split; [congruence | left; reflexivity].
      * destruct (IH Hnd' Hin) as [H | [H1 H2]]; [left; exact H | right; tauto].
Qed.

(** While every arrival at a known coordinate replaces the retained fix,
    each entry of the dictionary is the last fix seen at its coordinate. *)
Lemma clean_gga_fold_last (data processed : list ref) (d : dict) :
  (forall a b, In a (processed ++ data) -> In b (processed ++ data) ->
     a <> b -> coordinate_of h a = coordinate_of h b ->
     (120 * 1000000 < Z.abs (timestamp (h a) - timestamp (h b)))%Z) ->
  NoDup (dict_keys d) ->
  (forall k v, In (k, v) d ->
     find (at_coordinate h k) (rev processed) = Some v) ->
  forall k v, In (k, v) (fold_left (clean_gga_step h) data d) ->
    find (at_coordinate h k) (rev (processed ++ data)) = Some v.
Proof.
  revert processed d. induction data as [| c data IH];
    intros processed d Hwin Hnd Hlast k v; cbn [fold_left].
  - rewrite app_nil_r. apply Hlast.
  - replace (processed ++ c :: data) with ((processed ++ [c]) ++ data)
      by (rewrite <- app_assoc; reflexivity).
    apply IH.
    + rewrite <- app_assoc. exact Hwin.
    + apply clean_gga_step_inv. split; [exact Hnd |].
      apply Forall_forall. intros [k0 v0] Hin. cbn.
      apply Hlast in Hin. apply find_some in Hin.
      symmetry. apply at_coordinate_spec, Hin.
    + intros k0 v0. rewrite rev_app_distr. cbn [rev app find].
      unfold clean_gga_step.
      destruct (dict_get (coordinate_of h c) d) as [record |] eqn:Eg.
      * pose proof (Hlast _ _ (dict_get_entry _ _ _ Eg)) as Hf.
        pose proof (find_some _ _ Hf) as [Hin Hat].
        apply at_coordinate_spec in Hat. apply in_rev in Hin.
        unfold total_seconds_gt, minimum_elapsed_time.
        destruct (Z.ltb_spec (120 * 1000000)
                    (Z.abs (timestamp (h record) - timestamp (h c))))
          as [Hgt | Hle].
        -- intros Hkv. apply dict_set_entries in Hkv; [| exact Hnd].
           destruct Hkv as [[-> ->] | [Hne Hkv]].
           ++ rewrite (proj2 (at_coordinate_spec _ _) eq_refl). reflexivity.
           ++ destruct (at_coordinate h k0 c) eqn:Ea;
                [apply at_coordinate_spec in Ea; congruence |].
              apply Hlast, Hkv.
        -- (* not replaced: the retained fix is the arriving object itself *)
           assert (record = c) as ->.
           { destruct (Nat.eq_dec record c) as [E | N]; [exact E |].
             exfalso.
             assert ((120 * 1000000
                      < Z.abs (timestamp (h record) - timestamp (h c)))%Z).
             { apply Hwin; [apply in_or_app; tauto | | exact N | exact Hat].
               apply in_or_app. right. left. reflexivity. }
             lia. }
           intros Hkv.
           destruct (at_coordinate h k0 c) eqn:Ea; [| apply Hlast, Hkv].
           apply at_coordinate_spec in Ea. subst k0.
           pose proof (Hlast _ _ Hkv) as Hv. pose proof Hf as Hc.
           congruence.
      * apply dict_get_none in Eg. rewrite dict_set_absent by exact Eg.
        intros Hkv. apply in_app_or in Hkv.
        destruct Hkv as [Hkv | [E | []]].
        -- destruct (at_coordinate h k0 c) eqn:Ea; [| apply Hlast, Hkv].
           apply at_coordinate_spec in Ea. subst k0. exfalso. apply Eg.
           apply (in_map fst) in Hkv. exact Hkv.
        -- injection E as <- <-.
           rewrite (proj2 (at_coordinate_spec _ _) eq_refl). reflexivity.
Qed.

(** When any two different fixes of the input at the same coordinate are
    more than 120 seconds apart, each returned fix is the last fix of the
    input at its coordinate. *)
Theorem dedup_last_beyond_window (data : list ref) :
  (forall a b, In a data -> In b data -> a <> b ->
     coordinate_of h a = coordinate_of h b ->
     (120 * 1000000 < Z.abs (timestamp (h a) - timestamp (h b)))%Z) ->
  forall r, In r (clean_gga_data h data) ->
    find (at_coordinate h (coordinate_of h r)) (rev data) = Some r.
Proof.
  intros Hwin r Hr. unfold clean_gga_data, dict_values in Hr.
  apply in_map_iff in Hr. destruct Hr as ([k v] & E & Hin). cbn in E. subst v.
  pose proof (clean_gga_fold_last data [] [] Hwin) as Hf. cbn [app] in Hf.
  assert (Hk : find (at_coordinate h k) (rev data) = Some r).
  { apply Hf; [constructor | intros ? ? [] | exact Hin]. }
  pose proof (find_some _ _ Hk) as [_ Hat]. apply at_coordinate_spec in Hat.
  rewrite Hat. exact Hk.
Qed.

End DeduplicatorMore.

(** ** Uphill Classifier: short tracks, kept and cleared runs, input order *)

Section ClassifierMore.


(** A track of fewer than two fixes is returned untouched, whatever its
    flags. *)
Theorem detect_uphill_short_track (h : heap) (data : list ref) :
  (length data <= 1)%nat -> detect_uphill h data = Some (h, data).
Proof.
  intros Hlen. destruct data as [| x [| y data]]; [| | cbn in Hlen; lia].
  - reflexivity.
  - unfold detect_uphill. rewrite pass2_elements.
    cbn [sorted fold_right insert_by length].
    unfold pass1, range. cbn [seq fold_left]. unfold pass1_body.
    cbn [Nat.add Nat.ltb Nat.leb]. cbn [for_each pass2_step].
    destruct (uphill (h x)); reflexivity.
Qed.






(** With distinct fixes and all flags false: when any two fixes of the track
    are less than 10 meters apart, no fix is flagged at return. *)
Theorem stationary_track_not_uphill (h : heap) (data : list ref) :
  NoDup data -> all_false h data ->
  (forall a b d, In a data -> In b data ->
     get_distance_between_locations (h a) (h b) = Some d -> d * 1000 < 10) ->
  exists h' out,
    detect_uphill h data = Some (h', out)
    /\ forall r, In r out -> uphill (h' r) = false.
Proof.
  intros Hnd Hfalse Hnear.
  destruct (detect_uphill_run h data) as (h2 & seg & Eloop & E & Hf & _).
  set (l := sorted (fun r => timestamp (h r)) data) in *.
  destruct (pass2_runs (length l) l (pass1 h l (length data)))
    as (h' & E' & Hsig).
  - lia.
  - apply sorted_data_NoDup, Hnd.
  - apply pass1_last_unflagged; assumption.
  - rewrite E' in Eloop. injection Eloop as <- <-.
    exists h', l. split; [exact E |].
    intros r Hr. destruct (uphill (h' r)) eqn:Hu; [| reflexivity].
    destruct (Hsig r Hr Hu)
      as (pre & run & post & El & Hin & _ & _ & _ & d & Ed & Hd).
    assert (Hrun_ne : run <> []) by (intros ->; destruct Hin).
    assert (Hsub : forall y, In y run -> In y data).
    { intros y Hy. apply (sorted_data_In h data). fold l. rewrite El.
      apply in_or_app. right. apply in_or_app. left. exact Hy. }
    rewrite get_distance_haversine in Ed. injection Ed as <-.
    assert (Hlt : haversine (h (hd O run)) (h (last run O)) * 1000 < 10).
    { apply (Hnear (hd O run) (last run O)).
      - apply Hsub, hd_In, Hrun_ne.
      - apply Hsub, last_In, Hrun_ne.
      - apply get_distance_haversine. }
    rewrite (haversine_same_fix (h (hd O run)) (h' (hd O run))
                                (h (last run O)) (h' (last run O))) in Hd
      by apply Hf.
    lra.
Qed.

Lemma sorted_unique (key : ref -> Z) (l1 l2 : list ref) :
  (forall a b, In a l1 -> In b l1 -> key a = key b -> a = b) ->
  Permutation l1 l2 ->
  StronglySorted (by_key key) l1 -> StronglySorted (by_key key) l2 ->
  l1 = l2.
Proof.
  revert l2. induction l1 as [| a l1 IH]; intros l2 Hinj Hp H1 H2.
  - apply Permutation_nil in Hp. congruence.
  - destruct l2 as [| b l2];
      [apply Permutation_sym, Permutation_nil in Hp; discriminate |].
    inversion H1 as [| ? ? H1' Ha]; subst.
    inversion H2 as [| ? ? H2' Hb]; subst.
    rewrite Forall_forall in Ha, Hb.
    assert (Eab : a = b).
    { assert (Hb_in : In b (a :: l1))
        by (apply (Permutation_in _ (Permutation_sym Hp)); left; reflexivity).
      assert (Ha_in : In a (b :: l2))
        by (apply (Permutation_in _ Hp); left; reflexivity).
      destruct Hb_in as [E | Hb_in]; [exact E |].
      destruct Ha_in as [E | Ha_in]; [congruence |].
      apply Hinj; [left; reflexivity | right; exact Hb_in |].
      pose proof (Ha b Hb_in) as Hab. pose proof (Hb a Ha_in) as Hba.
      unfold by_key in *. lia. }
    subst b. f_equal. apply IH.
    + intros x y Hx Hy. apply Hinj; right; assumption.
    + apply Permutation_cons_inv in Hp. exact Hp.
    + exact H1'.
    + exact H2'.
Qed.

(** When no two fixes have the same timestamp, the result does not depend on
    the order in which the fixes are given. *)
Theorem detect_uphill_input_order (h : heap) (data data' : list ref) :
  Permutation data data' ->
  (forall a b, In a data -> In b data ->
     timestamp (h a) = timestamp (h b) -> a = b) ->
  detect_uphill h data' = detect_uphill h data.
Proof.
  intros Hp Hinj. unfold detect_uphill.
  rewrite <- (Permutation_length Hp).
  replace (sorted (fun record => timestamp (h record)) data')
    with (sorted (fun record => timestamp (h record)) data); [reflexivity |].
  apply (sorted_unique (fun record => timestamp (h record))).
  - intros a b Ha Hb. apply Hinj; apply (sorted_data_In h data); assumption.
  - eapply perm_trans; [apply Permutation_sym, sorted_perm |].
    eapply perm_trans; [exact Hp | apply sorted_perm].
  - apply sorted_StronglySorted.
  - apply sorted_StronglySorted.
Qed.

End ClassifierMore.

(** ** Track Exporter *)

Section Exporter.

Variables (h : heap) (l : list ref).

Lemma kml_loop (len k : nat) (doc : simplekml.Kml) :
  (k + len = length l)%nat ->
  for_break (kml_body h l) (seq k len) doc
  = simplekml.mkKml (simplekml.name doc)
      (simplekml.features doc ++ map (line_from h l) (seq k (len - 1))).
Proof.
  revert k doc. induction len as [| len IH]; intros k doc Hk.
  - cbn. rewrite app_nil_r. destruct doc; reflexivity.
  - cbn [seq for_break]. unfold kml_body at 1.
    destruct (Nat.leb_spec (length l) (k + 1)) as [Hle | Hgt].
    + assert (len = 0)%nat as -> by lia. cbn. rewrite app_nil_r.
      destruct doc; reflexivity.
    + fold (line_from h l k). rewrite IH by lia.
      unfold simplekml.newlinestring. cbn [simplekml.name simplekml.features].
      rewrite <- app_assoc. cbn [app].
      destruct len as [| len']; [lia |].
      cbn [Nat.sub seq map]. rewrite Nat.sub_0_r. reflexivity.
Qed.

(** The document has one line string per pair of consecutive fixes, in
    order: none for a track of fewer than two fixes, otherwise one less than
    there are fixes; line [i] joins fix [i] to fix [i + 1], is red when fix
    [i] is flagged and light green otherwise, and has width 6. *)
Theorem kml_generator_lines :
  simplekml.name (kml_generator h l) = "Up Hill Detector"%string
  /\ length (simplekml.features (kml_generator h l)) = (length l - 1)%nat
  /\ forall i, (i + 1 < length l)%nat ->
       nth_error (simplekml.features (kml_generator h l)) i
       = Some (line_from h l i).
Proof.
  unfold kml_generator, range. rewrite (kml_loop (length l) 0) by lia.
  cbn [simplekml.name simplekml.features app].
  split; [reflexivity | split].
  - rewrite length_map, length_seq. reflexivity.
  - intros i Hi. rewrite nth_error_map, nth_error_seq.
    destruct (Nat.ltb_spec i (length l - 1)); [reflexivity | lia].
Qed.

End Exporter.

(** The drawing reads neither the timestamps nor the flag of the last fix:
    two heaps that agree on positions and altitudes, and on the flags of all
    fixes of the track but the last, give the same document. *)
Theorem kml_generator_reads (h h' : heap) (l : list ref) :
  (forall r, In r l -> reformat (h' r) = reformat (h r)) ->
  (forall i, (i + 1 < length l)%nat ->
     uphill (h' (nth i l O)) = uphill (h (nth i l O))) ->
  kml_generator h' l = kml_generator h l.
Proof.
  intros Hf Hu. unfold kml_generator, range.
  rewrite !(kml_loop _ l (length l) 0) by lia. f_equal. f_equal.
  apply map_ext_in. intros i Hi. apply in_seq in Hi.
  unfold line_from.
  rewrite Hu by lia.
  rewrite !Hf by (apply nth_In; lia). reflexivity.
Qed.

(** ** Fix Parser boundary *)

Section Reader.

Variable parse : gga_parser.

Lemma repeat_snoc {A : Type} (x : A) (k : nat) :
  repeat x k ++ [x] = x :: repeat x k.
Proof. induction k as [| k IH]; cbn; [reflexivity | rewrite IH; reflexivity]. Qed.

(** The loop of [read_gpgga] from any state. *)
Lemma read_gpgga_loop (lines : list String.string) :
  forall (g : list ref) (s : store) (out : list String.string),
    match for_each (read_gpgga_line parse) lines (g, s, out) with
    | Some (g', s', out') =>
        existsb (fault_line parse) lines = false
        /\ g' = g ++ seq (allocated s) (length (parsed_records parse lines))
        /\ allocated s'
           = (allocated s + length (parsed_records parse lines))%nat
        /\ map (objects s')
               (seq (allocated s) (length (parsed_records parse lines)))
           = parsed_records parse lines
        /\ (forall r, (r < allocated s)%nat -> objects s' r = objects s r)
        /\ out' = out ++ repeat "error parsing"%string
                           (length (filter (parse_error_line parse) lines))
    | None => existsb (fault_line parse) lines = true
    end.
Proof.
  induction lines as [| line lines IH]; intros g s out.
  - cbn. rewrite !app_nil_r, Nat.add_0_r. tauto.
  - cbn [for_each read_gpgga_line parsed_records existsb filter].
    unfold fault_line at 1 3, parse_error_line at 1.
    destruct (String.prefix "$GPGGA" line) eqn:Ep; cbn [andb orb bind].
    + destruct (parse line) as [t lon lat alt | |] eqn:El; cbn [bind orb].
      * unfold new_GPSREC. cbv beta iota zeta. cbn [bind].
        set (s1 := mkStore _ (S (allocated s))).
        specialize (IH (g ++ [allocated s]) s1 out).
        destruct (for_each _ lines _) as [[[g' s'] out'] |]; [| exact IH].
        destruct IH as (Hfault & Hg & Ha & Hm & Hfr & Ho).
        change (allocated s1) with (S (allocated s)) in *.
        split; [exact Hfault | split; [| split; [| split; [| split]]]].
        -- rewrite Hg, <- app_assoc. reflexivity.
        -- rewrite Ha. cbn [length]. lia.
        -- cbn [length seq map]. rewrite Hm. f_equal.
           rewrite Hfr by lia. unfold s1. cbn [objects].
           rewrite Nat.eqb_refl. reflexivity.
        -- intros r Hr. rewrite Hfr by lia. unfold s1. cbn [objects].
           destruct (Nat.eqb_spec r (allocated s)); [lia | reflexivity].
        -- exact Ho.
      * specialize (IH g s (out ++ ["error parsing"%string])).
        destruct (for_each _ lines _) as [[[g' s'] out'] |]; [| exact IH].
        destruct IH as (Hfault & Hg & Ha & Hm & Hfr & Ho).
        split; [exact Hfault | split; [exact Hg | split; [exact Ha |]]].
        split; [exact Hm | split; [exact Hfr |]].
        rewrite Ho, <- app_assoc. reflexivity.
      * reflexivity.
    + specialize (IH g s out).
      destruct (for_each _ lines _) as [[[g' s'] out'] |]; exact IH.
Qed.

Lemma parsed_records_unflagged (lines : list String.string) (o : GPSREC) :
  In o (parsed_records parse lines) -> uphill o = false.
Proof.
  induction lines as [| line lines IH]; cbn [parsed_records]; [intros [] |].
  destruct (String.prefix "$GPGGA" line); [| exact IH].
  destruct (parse line); [| exact IH | exact IH].
  intros [<- | H]; [reflexivity | exact (IH H)].
Qed.

Lemma gga_line_count (lines : list String.string) :
  existsb (fault_line parse) lines = false ->
  (length (parsed_records parse lines)
   + length (filter (parse_error_line parse) lines)
   = length (filter (String.prefix "$GPGGA") lines))%nat.
Proof.
  induction lines as [| line lines IH]; [reflexivity |].
  cbn [existsb parsed_records filter].
  unfold fault_line at 1, parse_error_line at 1.
  destruct (String.prefix "$GPGGA" line); cbn [andb orb]; [| exact IH].
  destruct (parse line); cbn [orb length]; intros Hf;
    try discriminate; specialize (IH Hf); lia.
Qed.

(** [read_gpgga] creates one new object per line that starts with [$GPGGA]
    and parses, in file order, and returns them: the objects are new and
    pairwise distinct, they hold the parsed values with the flag clear, and
    the objects that existed before are not changed. *)
Theorem read_gpgga_records (lines : list String.string) (s s' : store)
        (gga_data : list ref) (out : list String.string) :
  read_gpgga parse lines s = Some (gga_data, s', out) ->
  map (objects s') gga_data = parsed_records parse lines
  /\ gga_data = seq (allocated s) (length gga_data)
  /\ allocated s' = (allocated s + length gga_data)%nat
  /\ NoDup gga_data
  /\ all_false (objects s') gga_data
  /\ forall r, (r < allocated s)%nat -> objects s' r = objects s r.
Proof.
  intros E. unfold read_gpgga in E.
  pose proof (read_gpgga_loop lines [] s []) as H. rewrite E in H.
  destruct H as (_ & Hg & Ha & Hm & Hfr & _). cbn [app] in Hg.
  assert (Hlen : length gga_data = length (parsed_records parse lines)).
  { rewrite Hg, length_seq. reflexivity. }
  rewrite Hlen. split; [rewrite Hg at 1; exact Hm |].
  split; [exact Hg | split; [exact Ha | split; [| split; [| exact Hfr]]]].
  - rewrite Hg. apply seq_NoDup.
  - intros r Hr. apply (parsed_records_unflagged lines).
    rewrite <- Hm, <- Hg. apply in_map, Hr.
Qed.

(** Every line that starts with [$GPGGA] is accounted for: it gives either
    a record or the message [error parsing], and nothing else is printed. *)
Theorem read_gpgga_accounting (lines : list String.string) (s s' : store)
        (gga_data : list ref) (out : list String.string) :
  read_gpgga parse lines s = Some (gga_data, s', out) ->
  (length gga_data + length out
   = length (filter (String.prefix "$GPGGA") lines))%nat
  /\ forall m, In m out -> m = "error parsing"%string.
Proof.
  intros E. unfold read_gpgga in E.
  pose proof (read_gpgga_loop lines [] s []) as H. rewrite E in H.
  destruct H as (Hfault & Hg & _ & _ & _ & Ho). cbn [app] in Hg, Ho.
  split.
  - rewrite Hg, Ho, length_seq, repeat_length. apply gga_line_count, Hfault.
  - intros m Hm. rewrite Ho in Hm. apply repeat_spec in Hm. exact Hm.
Qed.

End Reader.

(** ** From the Deduplicator to the Track Exporter *)


(** ** The further properties at concrete inputs *)

Lemma distance_along_meridian_witness :
  get_distance_between_locations (preflagged_track 0%nat) (preflagged_track 1%nat)
  = Some (6371 * ((90 - 0) * PI / 180)).
Proof.
  apply (distance_along_meridian (preflagged_track 0%nat)
                                 (preflagged_track 1%nat)).
  - reflexivity.
  - cbn. lra.
Defined.

Lemma distance_along_equator_witness :
  get_distance_between_locations (mkGPSREC 0 0 0 0 false)
                                 (mkGPSREC 0 1 0 0 false)
  = Some (6371 * ((1 - 0) * PI / 180)).
Proof.
  apply (distance_along_equator (mkGPSREC 0 0 0 0 false)
                                (mkGPSREC 0 1 0 0 false)).
  - reflexivity.
  - reflexivity.
  - cbn. lra.
Defined.

Lemma dedup_first_within_window_witness :
  find (at_coordinate flat_track (coordinate_of flat_track 0%nat)) [0; 1]%nat
  = Some 0%nat.
Proof.
  apply (dedup_first_within_window flat_track [0; 1]%nat).
  - intros a b Ha Hb _. cbn in Ha, Hb. cbn [flat_track timestamp].
    destruct Ha as [<- | [<- | []]], Hb as [<- | [<- | []]]; cbn; lia.
  - rewrite dedup_pair by reflexivity. left. reflexivity.
Defined.

Lemma dedup_last_beyond_window_witness :
  find (at_coordinate slow_track (coordinate_of slow_track 1%nat))
       (rev [0; 1]%nat)
  = Some 1%nat.
Proof.
  apply (dedup_last_beyond_window slow_track [0; 1]%nat).
  - intros a b Ha Hb Hne _. cbn in Ha, Hb. cbn [slow_track timestamp].
    destruct Ha as [<- | [<- | []]], Hb as [<- | [<- | []]];
      try congruence; cbn; lia.
  - rewrite dedup_pair by reflexivity. left. reflexivity.
Defined.

Lemma detect_uphill_short_track_witness :
  detect_uphill flagged_track [0%nat] = Some (flagged_track, [0%nat]).
Proof.
  apply (detect_uphill_short_track flagged_track [0%nat]). cbn. lia.
Defined.




Lemma stationary_track_not_uphill_witness :
  exists h' out,
    detect_uphill flat_track [0; 1]%nat = Some (h', out)
    /\ forall r, In r out -> uphill (h' r) = false.
Proof.
  apply (stationary_track_not_uphill flat_track [0; 1]%nat).
  - exact two_fixes_NoDup.
  - apply flat_track_all_false.
  - intros a b d _ _ E. rewrite get_distance_haversine in E.
    injection E as <-.
    rewrite haversine_same_coordinate by reflexivity. lra.
Defined.

Lemma detect_uphill_input_order_witness :
  detect_uphill flat_track [1; 0]%nat = detect_uphill flat_track [0; 1]%nat.
Proof.
  apply (detect_uphill_input_order flat_track [0; 1]%nat [1; 0]%nat).
  - apply perm_swap.
  - intros a b _ _ E. cbn in E. lia.
Defined.

Lemma kml_generator_reads_witness :
  kml_generator (set_uphill flat_track 1%nat true) [0; 1]%nat
  = kml_generator flat_track [0; 1]%nat.
Proof.
  apply (kml_generator_reads flat_track (set_uphill flat_track 1%nat true)
                             [0; 1]%nat).
  - intros r _. unfold set_uphill.
    destruct (Nat.eqb r 1); reflexivity.
  - intros i Hi. cbn in Hi. assert (i = 0)%nat as -> by lia. reflexivity.
Defined.

Lemma read_gpgga_records_witness :
  exists gga_data s' out,
    read_gpgga sample_parser sample_lines empty_store
    = Some (gga_data, s', out)
    /\ map (objects s') gga_data = parsed_records sample_parser sample_lines
    /\ NoDup gga_data.
Proof.
  eexists. eexists. eexists. split; [reflexivity |].
  pose proof (read_gpgga_records sample_parser sample_lines empty_store
                _ _ _ eq_refl) as H.
  split; [apply H | apply H].
Defined.

Lemma read_gpgga_accounting_witness :
  exists gga_data s' out,
    read_gpgga sample_parser sample_lines empty_store
    = Some (gga_data, s', out)
    /\ (length gga_data + length out
        = length (filter (String.prefix "$GPGGA") sample_lines))%nat.
Proof.
  eexists. eexists. eexists. split; [reflexivity |].
  apply (read_gpgga_accounting sample_parser sample_lines empty_store
           _ _ _ eq_refl).
Defined.

Lemma distance_range_witness :
  0 <= 6371 * (PI / 2) <= 6371 * PI.
Proof.
  apply (distance_range (climb_track 0%nat) (climb_track 1%nat)).
  rewrite get_distance_haversine, haversine_quarter by reflexivity.
  reflexivity.
Defined.


